(** * Session selection of the broadcaster (server/selection.go)

    A shallow embedding of the two [BroadcastSessionsSelector]
    implementations, [MinLSSelector] and [LIFOSelector], together with the
    parts of Go's [container/heap] that [MinLSSelector] calls, and the
    properties of the selection policy proved about them.

    Conventions of the embedding:
    - a [*BroadcastSession] is a record holding the identity of the pointer
      and the two fields that the selectors read;
    - [float64] is Rocq's primitive binary64 float, compared with the IEEE
      754 comparisons, as Go does;
    - [int64] is a [Z] with the wrap-around of every addition and
      subtraction written out ([wrap64]);
    - a slice is a [list]; indices are [nat] (a slice never has more than
      2^62 pointers, so index arithmetic of [container/heap] cannot
      overflow and its [j1 < 0] guard is dead);
    - a Go map from addresses to stakes is a [gmap];
    - a run-time panic is the outcome [Panic];
    - the stake reader and the random source are external: the behaviour
      they show during one call of [Select] is an [Env], and every call made
      to them is recorded in a log of [event]s. *)

From Stdlib Require Import ZArith List Floats Sorted.
From stdpp Require Import base list gmap fin_maps.

Local Open Scope Z_scope.

(** ** Data model *)

(** [ethcommon.Address]: 20 bytes. *)
Abbreviation Address := (list N) (only parsing).
Definition AddressLength : nat := 20.

(** [ethcommon.BytesToAddress] (go-ethereum): keeps the last 20 bytes of a
    longer input and pads a shorter one with zero bytes on the left. *)
Definition BytesToAddress (b : list N) : Address :=
  let b' := drop (length b - AddressLength) b in
  replicate (AddressLength - length b') 0%N ++ b'.

(** Modelled from the spec: the declaration of [BroadcastSession] is not in
    selection.go. A session carries a latency score and the bytes from
    which its stake address is derived, the recipient of its ticket
    parameters ([OrchestratorInfo.TicketParams.Recipient]); [sessRef] stands
    for the identity of the pointer that the selectors store. A session of
    the model is a live object: the pointer is not nil and its ticket
    parameters are set, so the dereferences of [Select] do not fail. *)
Record BroadcastSession := mkSession {
  sessRef : nat;
  LatencyScore : float;
  Recipient : list N
}.

Inductive outcome (A : Type) : Type :=
| Ret (a : A)
| Panic.
Arguments Ret {A} a.
Arguments Panic {A}.

(** [int64] arithmetic wraps around. *)
Definition wrap64 (z : Z) : Z := (z + 2 ^ 63) mod 2 ^ 64 - 2 ^ 63.

(** ** The external collaborators *)

(** A reference to an object implementing [stakeReader]. *)
Definition stakeReader := nat.

(** What the collaborators answer during one call of [Select]:
    [Stakes rdr addrs] is the map returned by the reader, [None] when it
    returns an error; [Int63n n] is the draw of [rand.Int63n(n)], which lies
    in [[0, n)] for a positive [n]. *)
Record Env := mkEnv {
  Stakes : stakeReader -> list Address -> option (gmap Address Z);
  Int63n : Z -> Z;
  Int63n_range : forall n, 0 < n -> 0 <= Int63n n < n
}.

Inductive event :=
| EvStakes (rdr : stakeReader) (addrs : list Address)
| EvInt63n (n : Z)
| EvLogError.

(** ** sessHeap and container/heap

    [Module sessHeap] has the methods of the type; [Module heap] has the
    functions of Go's [container/heap] that are called on it, written after
    the source of the library. *)

Abbreviation sessHeap := (list BroadcastSession) (only parsing).

Module sessHeap.

Definition Len (h : sessHeap) : nat := length h.

(** [h[i].LatencyScore < h[j].LatencyScore]; [container/heap] calls it
    with indices in range only. *)
Definition Less (h : sessHeap) (i j : nat) : bool :=
  match h !! i, h !! j with
  | Some a, Some b => PrimFloat.ltb (LatencyScore a) (LatencyScore b)
  | _, _ => false
  end.

(** [h[i], h[j] = h[j], h[i]] *)
Definition Swap (h : sessHeap) (i j : nat) : sessHeap :=
  match h !! i, h !! j with
  | Some a, Some b => <[j := a]> (<[i := b]> h)
  | _, _ => h
  end.

Definition Push (h : sessHeap) (x : BroadcastSession) : sessHeap := h ++ [x].

(** Removes and returns the last element; indexing [old[n-1]] panics on an
    empty slice. *)
Definition Pop (h : sessHeap) : outcome (BroadcastSession * sessHeap) :=
  let n := length h in
  match h !! (n - 1)%nat with
  | Some sess => Ret (sess, take (n - 1) h)
  | None => Panic
  end.

Definition Peek (h : sessHeap) : option BroadcastSession :=
  if (Len h =? 0)%nat then None else h !! 0%nat.

End sessHeap.

Module heap.
Import sessHeap.

(** [(j - 1) / 2], the parent of [j]; Go's division truncates towards
    zero, so the parent of index 0 is 0. *)
Definition parent (j : nat) : nat := ((j - 1) / 2)%nat.

(** The loop of [up]; every iteration that does not break moves [j] to
    its parent, so [S j] iterations are enough ([up_loop_fuel]). *)
Fixpoint up_loop (fuel : nat) (h : sessHeap) (j : nat) : sessHeap :=
  match fuel with
  | O => h
  | S fuel' =>
      let i := parent j in
      if (i =? j)%nat || negb (Less h j i) then h
      else up_loop fuel' (Swap h i j) i
  end.

Definition up (h : sessHeap) (j : nat) : sessHeap := up_loop (S j) h j.

(** The loop of [down] on the first [n] elements; every iteration that
    does not break moves [i] to a child, so [n] iterations are enough. *)
Fixpoint down_loop (fuel : nat) (h : sessHeap) (i n : nat) : sessHeap :=
  match fuel with
  | O => h
  | S fuel' =>
      let j1 := (2 * i + 1)%nat in
      if (n <=? j1)%nat then h
      else
        let j2 := (j1 + 1)%nat in
        let j := if (j2 <? n)%nat && Less h j2 j1 then j2 else j1 in
        if negb (Less h j i) then h
        else down_loop fuel' (Swap h i j) j n
  end.

Definition down (h : sessHeap) (i0 n : nat) : sessHeap := down_loop n h i0 n.

Definition Init (h : sessHeap) : sessHeap :=
  let n := Len h in
  fold_left (fun h k => down h (n / 2 - 1 - k)%nat n) (seq 0 (n / 2)) h.

Definition Push (h : sessHeap) (x : BroadcastSession) : sessHeap :=
  let h1 := sessHeap.Push h x in
  up h1 (Len h1 - 1).

(** [n := h.Len() - 1; h.Swap(0, n); down(h, 0, n); return h.Pop()];
    on an empty heap [Swap(0, -1)] panics. *)
Definition Pop (h : sessHeap) : outcome (BroadcastSession * sessHeap) :=
  match h with
  | [] => Panic
  | _ :: _ =>
      let n := (Len h - 1)%nat in
      sessHeap.Pop (down (Swap h 0 n) 0 n)
  end.

End heap.

(** ** LIFOSelector *)

Abbreviation LIFOSelector := (list BroadcastSession) (only parsing).

Module LIFO.

Definition Add (s : LIFOSelector) (sessions : list BroadcastSession) : LIFOSelector :=
  sessions ++ s.

Definition Complete (s : LIFOSelector) (sess : BroadcastSession) : LIFOSelector :=
  s ++ [sess].

(** [last := len(sessList) - 1; sess, sessions := sessList[last], sessList[:last]];
    on an empty list [last] is [-1] and the index expression panics. *)
Definition Select (s : LIFOSelector) : outcome (BroadcastSession * LIFOSelector) :=
  match length s with
  | O => Panic
  | S last =>
      match s !! last with
      | Some sess => Ret (sess, take last s)
      | None => Panic
      end
  end.

Definition Size (s : LIFOSelector) : nat := length s.

Definition Clear (s : LIFOSelector) : LIFOSelector := [].

End LIFO.

(** ** MinLSSelector *)

Record MinLSSelector := mkMinLS {
  unknownSessions : list BroadcastSession;
  knownSessions : sessHeap;
  stakeRdr : option stakeReader;
  minLS : float
}.

Module MinLS.

Definition NewMinLSSelector (rdr : option stakeReader) (minLS : float) : MinLSSelector :=
  mkMinLS [] (heap.Init []) rdr minLS.

Definition Add (s : MinLSSelector) (sessions : list BroadcastSession) : MinLSSelector :=
  mkMinLS (unknownSessions s ++ sessions) (knownSessions s) (stakeRdr s) (minLS s).

Definition Complete (s : MinLSSelector) (sess : BroadcastSession) : MinLSSelector :=
  mkMinLS (unknownSessions s) (heap.Push (knownSessions s) sess) (stakeRdr s) (minLS s).

Definition Size (s : MinLSSelector) : nat :=
  (length (unknownSessions s) + sessHeap.Len (knownSessions s))%nat.

Definition Clear (s : MinLSSelector) : MinLSSelector :=
  mkMinLS [] [] None (minLS s).

(** [stakes[a]]: a key that is absent reads as zero. *)
Definition stakeOf (stakes : gmap Address Z) (a : Address) : Z :=
  default 0 (stakes !! a).

(** [for _, stake := range stakes { totalStake += stake }] *)
Definition totalStakeOf (stakes : gmap Address Z) : Z :=
  map_fold (fun _ stake acc => wrap64 (acc + stake)) 0 stakes.

(** The selection loop, entered at index [i] with [rest] the sessions from
    [i] on: the index of the first session that brings [r] to [<= 0]. *)
Fixpoint lottery (stakes : gmap Address Z) (addrs : list Address)
    (r : Z) (i : nat) (rest : list BroadcastSession) : option nat :=
  match rest with
  | [] => None
  | _ :: rest' =>
      let r' := wrap64 (r - stakeOf stakes (default [] (addrs !! i))) in
      if r' <=? 0 then Some i else lottery stakes addrs r' (S i) rest'
  end.

(** [s[n-1], s[i] = s[i], s[n-1]; s = s[:n-1]] *)
Definition removeAt (l : list BroadcastSession) (i : nat) : list BroadcastSession :=
  let n := length l in
  match l !! i, l !! (n - 1)%nat with
  | Some si, Some sn => take (n - 1) (<[i := sn]> (<[(n - 1)%nat := si]> l))
  | _, _ => l
  end.

Definition selectUnknownSession (e : Env) (s : MinLSSelector)
    : option BroadcastSession * MinLSSelector * list event :=
  match unknownSessions s with
  | [] => (None, s, [])
  | sess0 :: tl =>
      match stakeRdr s with
      | None =>
          (Some sess0, mkMinLS tl (knownSessions s) (stakeRdr s) (minLS s), [])
      | Some rdr =>
          let addrs := map (fun sess => BytesToAddress (Recipient sess)) (unknownSessions s) in
          match Stakes e rdr addrs with
          | None => (None, s, [EvStakes rdr addrs; EvLogError])
          | Some stakes =>
              let totalStake := totalStakeOf stakes in
              let '(r, draws) :=
                if 0 <? totalStake then (Int63n e totalStake, [EvInt63n totalStake])
                else (0, []) in
              let log := EvStakes rdr addrs :: draws in
              match lottery stakes addrs r 0 (unknownSessions s) with
              | Some i =>
                  (unknownSessions s !! i,
                   mkMinLS (removeAt (unknownSessions s) i) (knownSessions s)
                     (stakeRdr s) (minLS s),
                   log)
              | None => (None, s, log)
              end
          end
      end
  end.

Definition Select (e : Env) (s : MinLSSelector)
    : outcome (option BroadcastSession * MinLSSelector * list event) :=
  match sessHeap.Peek (knownSessions s) with
  | None => Ret (selectUnknownSession e s)
  | Some minSess =>
      if PrimFloat.ltb (minLS s) (LatencyScore minSess)
         && (0 <? length (unknownSessions s))%nat
      then Ret (selectUnknownSession e s)
      else
        match heap.Pop (knownSessions s) with
        | Ret (sess, h') =>
            Ret (Some sess, mkMinLS (unknownSessions s) h' (stakeRdr s) (minLS s), [])
        | Panic => Panic
        end
  end.

(** The caller's loop "call [Select] until [Size() == 0]", one [Env] for
    every call; it collects the sessions returned. *)
Fixpoint drain (envs : list Env) (s : MinLSSelector)
    : outcome (list BroadcastSession * MinLSSelector) :=
  match envs with
  | [] => Ret ([], s)
  | e :: envs' =>
      if (Size s =? 0)%nat then Ret ([], s)
      else
        match Select e s with
        | Panic => Panic
        | Ret (r, s', _) =>
            match drain envs' s' with
            | Panic => Panic
            | Ret (out, s'') => Ret (option_list r ++ out, s'')
            end
        end
  end.

(** The calls by which a pool manager fills a selector. *)
Inductive fill := FillAdd (sessions : list BroadcastSession) | FillComplete (sess : BroadcastSession).

Definition applyFill (s : MinLSSelector) (f : fill) : MinLSSelector :=
  match f with
  | FillAdd l => Add s l
  | FillComplete x => Complete s x
  end.

Definition filled (f : fill) : list BroadcastSession :=
  match f with
  | FillAdd l => l
  | FillComplete x => [x]
  end.

End MinLS.

(** ** pm/stub.go: the stubs of the signature verifier, the broker and the
    validator

    A [*big.Int] is a [Z]; a Go map is a [gmap], read with the zero value
    for a key that is absent; a method with a pointer receiver takes the
    stub and returns the stub it leaves. [Ticket] and its [Hash()] are
    declared outside stub.go: they are parameters. *)

Module pm.

Inductive error :=
| ErrNoDeposit (addr : Address)
| ErrNoPenaltyEscrow (addr : Address)
| ErrInvalidTicket.

Record stubSigVerifier := mkSigVerifier { shouldVerify : bool }.

Definition SetShouldVerify (sv : stubSigVerifier) (b : bool) : stubSigVerifier :=
  mkSigVerifier b.

Definition Verify (sv : stubSigVerifier) (addr : Address) (sig msg : list N) : bool :=
  shouldVerify sv.

Record stubBroker := mkBroker {
  deposits : gmap Address Z;
  penaltyEscrows : gmap Address Z;
  usedTickets : gmap (list N) bool;
  approvedSigners : gmap Address bool
}.

Definition newStubBroker : stubBroker := mkBroker ∅ ∅ ∅ ∅.

Definition FundAndApproveSigners (b : stubBroker) (depositAmount penaltyEscrowAmount : Z)
    (signers : list Address) : stubBroker * option error := (b, None).

Definition FundDeposit (b : stubBroker) (amount : Z) : stubBroker * option error :=
  (b, None).

Definition FundPenaltyEscrow (b : stubBroker) (amount : Z) : stubBroker * option error :=
  (b, None).

(** [for i := 0; i < len(signers); i++ { b.approvedSigners[signers[i]] = true }] *)
Definition ApproveSigners (b : stubBroker) (signers : list Address)
    : stubBroker * option error :=
  (mkBroker (deposits b) (penaltyEscrows b) (usedTickets b)
     (foldl (fun m signer => <[signer := true]> m) (approvedSigners b) signers),
   None).

Definition RequestSignersRevocation (b : stubBroker) (signers : list Address)
    : stubBroker * option error := (b, None).

Definition Unlock (b : stubBroker) : stubBroker * option error := (b, None).

Definition CancelUnlock (b : stubBroker) : stubBroker * option error := (b, None).

Definition Withdraw (b : stubBroker) : stubBroker * option error := (b, None).

Definition IsApprovedSigner (b : stubBroker) (sender signer : Address)
    : bool * option error :=
  (default false (approvedSigners b !! signer), None).

Definition SetDeposit (b : stubBroker) (addr : Address) (amount : Z) : stubBroker :=
  mkBroker (<[addr := amount]> (deposits b)) (penaltyEscrows b) (usedTickets b)
    (approvedSigners b).

Definition GetDeposit (b : stubBroker) (addr : Address) : option Z * option error :=
  match deposits b !! addr with
  | Some deposit => (Some deposit, None)
  | None => (None, Some (ErrNoDeposit addr))
  end.

Definition SetPenaltyEscrow (b : stubBroker) (addr : Address) (amount : Z) : stubBroker :=
  mkBroker (deposits b) (<[addr := amount]> (penaltyEscrows b)) (usedTickets b)
    (approvedSigners b).

Definition GetPenaltyEscrow (b : stubBroker) (addr : Address) : option Z * option error :=
  match penaltyEscrows b !! addr with
  | Some penaltyEscrow => (Some penaltyEscrow, None)
  | None => (None, Some (ErrNoPenaltyEscrow addr))
  end.

Record stubValidator := mkValidator {
  isValidTicket : bool;
  isWinningTicket : bool
}.

Definition SetIsValidTicket (v : stubValidator) (b : bool) : stubValidator :=
  mkValidator b (isWinningTicket v).

Definition SetIsWinningTicket (v : stubValidator) (b : bool) : stubValidator :=
  mkValidator (isValidTicket v) b.

Section tickets.

(** The type of tickets and [ticket.Hash()]. *)
Variable Ticket : Type.
Variable Hash : Ticket -> list N.

Definition RedeemWinningTicket (b : stubBroker) (ticket : Ticket) (sig : list N)
    (recipientRand : Z) : stubBroker * option error :=
  (mkBroker (deposits b) (penaltyEscrows b) (<[Hash ticket := true]> (usedTickets b))
     (approvedSigners b),
   None).

Definition IsUsedTicket (b : stubBroker) (ticket : Ticket) : bool * option error :=
  (default false (usedTickets b !! Hash ticket), None).

Definition ValidateTicket (v : stubValidator) (ticket : Ticket) (sig : list N)
    (recipientRand : Z) : option error :=
  if negb (isValidTicket v) then Some ErrInvalidTicket else None.

Definition IsWinningTicket (v : stubValidator) (ticket : Ticket) (sig : list N)
    (recipientRand : Z) : bool :=
  isWinningTicket v.

(** A call of a method of the broker that may change it. *)
Inductive call :=
| CallFundAndApproveSigners (depositAmount penaltyEscrowAmount : Z) (signers : list Address)
| CallFundDeposit (amount : Z)
| CallFundPenaltyEscrow (amount : Z)
| CallApproveSigners (signers : list Address)
| CallRequestSignersRevocation (signers : list Address)
| CallUnlock
| CallCancelUnlock
| CallWithdraw
| CallRedeemWinningTicket (ticket : Ticket) (sig : list N) (recipientRand : Z)
| CallSetDeposit (addr : Address) (amount : Z)
| CallSetPenaltyEscrow (addr : Address) (amount : Z).

(** The broker after a call. *)
Definition after (b : stubBroker) (c : call) : stubBroker :=
  match c with
  | CallFundAndApproveSigners d p signers => (FundAndApproveSigners b d p signers).1
  | CallFundDeposit amount => (FundDeposit b amount).1
  | CallFundPenaltyEscrow amount => (FundPenaltyEscrow b amount).1
  | CallApproveSigners signers => (ApproveSigners b signers).1
  | CallRequestSignersRevocation signers => (RequestSignersRevocation b signers).1
  | CallUnlock => (Unlock b).1
  | CallCancelUnlock => (CancelUnlock b).1
  | CallWithdraw => (Withdraw b).1
  | CallRedeemWinningTicket ticket sig recipientRand =>
      (RedeemWinningTicket b ticket sig recipientRand).1
  | CallSetDeposit addr amount => SetDeposit b addr amount
  | CallSetPenaltyEscrow addr amount => SetPenaltyEscrow b addr amount
  end.

End tickets.

End pm.

(** ** Vocabulary of the properties *)

(** The stake address of a session, as [selectUnknownSession] computes it. *)
Definition sessAddr (sess : BroadcastSession) : Address :=
  BytesToAddress (Recipient sess).

(** [a.LatencyScore < b.LatencyScore] *)
Definition scoreLt (a b : BroadcastSession) : bool :=
  PrimFloat.ltb (LatencyScore a) (LatencyScore b).

(** [a.LatencyScore <= b.LatencyScore] *)
Definition scoreLe (a b : BroadcastSession) : bool :=
  PrimFloat.leb (LatencyScore a) (LatencyScore b).

(** The score of the session is a number (not a NaN). *)
Definition scored (x : BroadcastSession) : Prop :=
  PrimFloat.is_nan (LatencyScore x) = false.

(** No entry of the array is smaller than its parent. *)
Definition minHeap (h : sessHeap) : Prop :=
  forall j x p, (0 < j)%nat ->
    h !! j = Some x -> h !! heap.parent j = Some p -> scoreLt x p = false.

(** The first [n] entries are ordered. *)
Definition minHeapUpTo (n : nat) (h : sessHeap) : Prop :=
  forall j x p, (0 < j < n)%nat ->
    h !! j = Some x -> h !! heap.parent j = Some p -> scoreLt x p = false.

(** The invariant of the loop of [heap.up] at index [j]: the array is
    ordered except between [j] and its parent, and the children of [j] are
    not smaller than the parent of [j]. *)
Definition upInv (h : sessHeap) (j : nat) : Prop :=
  (forall k x p, (0 < k)%nat -> k <> j ->
     h !! k = Some x -> h !! heap.parent k = Some p -> scoreLt x p = false) /\
  (forall k x g, (0 < j)%nat -> heap.parent k = j ->
     h !! k = Some x -> h !! heap.parent j = Some g -> scoreLt x g = false).

(** The invariant of the loop of [heap.down] at index [i]: the first [n]
    entries are ordered except between [i] and its children, which are not
    smaller than the parent of [i]. *)
Definition downInv (n : nat) (h : sessHeap) (i : nat) : Prop :=
  (forall k x p, (0 < k < n)%nat -> heap.parent k <> i ->
     h !! k = Some x -> h !! heap.parent k = Some p -> scoreLt x p = false) /\
  (forall k x g, (0 < i)%nat -> (k < n)%nat -> heap.parent k = i ->
     h !! k = Some x -> h !! heap.parent i = Some g -> scoreLt x g = false).

(** The sum of a list of integers, without wrap-around. *)
Definition sumZ (l : list Z) : Z := foldr Z.add 0 l.

(** The sum of the stakes of a map, without wrap-around. *)
Definition stakesTotal (stakes : gmap (list N) Z) : Z :=
  map_fold (fun _ stake acc => acc + stake) 0 stakes.

(** The stake that the loop subtracts for a session. *)
Definition sessStake (stakes : gmap (list N) Z) (sess : BroadcastSession) : Z :=
  MinLS.stakeOf stakes (sessAddr sess).

(** [r] minus the stakes of the sessions at the indices [0 .. m] of [l], as
    an [int64]. *)
Definition running (stakes : gmap (list N) Z) (l : list BroadcastSession)
    (r : Z) (m : nat) : Z :=
  wrap64 (r - sumZ (sessStake stakes <$> take (S m) l)).

(** The caller's loop on a [LIFOSelector]: [n] calls of [Select], stopped
    by the first that panics; it collects the sessions returned. *)
Fixpoint drainLIFO (n : nat) (s : LIFOSelector)
    : outcome (list BroadcastSession * LIFOSelector) :=
  match n with
  | O => Ret ([], s)
  | S n' =>
      match LIFO.Select s with
      | Panic => Panic
      | Ret (sess, s') =>
          match drainLIFO n' s' with
          | Panic => Panic
          | Ret (out, s'') => Ret (sess :: out, s'')
          end
      end
  end.


(** The calls of [rand.Int63n] of a log have a positive argument. *)
Definition drawsGuarded (log : list event) : Prop :=
  Forall (fun ev => match ev with EvInt63n n => 0 < n | _ => True end) log.

(** The stake reader answers, with non-negative [int64] stakes, and for the
    addresses it was asked about only. *)
Definition wellBehaved (e : Env) : Prop :=
  forall rdr addrs, exists stakes,
    Stakes e rdr addrs = Some stakes /\
    forall a v, stakes !! a = Some v -> a ∈ addrs /\ 0 <= v < 2 ^ 63.

(** [Select] goes to the sessions without a score: the heap is empty, or
    its root is above the threshold while a session without a score exists. *)
Definition routedToUnknown (s : MinLSSelector) : Prop :=
  match sessHeap.Peek (knownSessions s) with
  | None => True
  | Some minSess =>
      PrimFloat.ltb (minLS s) (LatencyScore minSess) = true /\ unknownSessions s <> []
  end.

(** The [Stakes] calls of a log. *)
Definition stakesCalls (log : list event) : list (stakeReader * list Address) :=
  omap (fun ev => match ev with EvStakes rdr addrs => Some (rdr, addrs) | _ => None end) log.

(** The states of a selector that is filled with scored sessions only. *)
Inductive reachable : MinLSSelector -> Prop :=
| reach_new rdr T : reachable (MinLS.NewMinLSSelector rdr T)
| reach_add s l : reachable s -> reachable (MinLS.Add s l)
| reach_complete s x : reachable s -> scored x -> reachable (MinLS.Complete s x)
| reach_select s e r s' log :
    reachable s -> MinLS.Select e s = Ret (r, s', log) -> reachable s'
| reach_clear s : reachable s -> reachable (MinLS.Clear s).

(** ** Sessions and collaborators used in the examples *)

(** The collaborators of one call: the stake reader answers [f], and
    [rand.Int63n(n)] draws [k mod n]. *)
Definition envOf (f : stakeReader -> list (list N) -> option (gmap (list N) Z))
    (k : Z) : Env :=
  mkEnv f (fun n => k mod n) (fun n H => Z.mod_pos_bound k n H).

(** Three sessions without a score; [sessA] and [sessC] have the same
    recipient. *)
Definition sessA : BroadcastSession := mkSession 1 0 [1%N].
Definition sessB : BroadcastSession := mkSession 2 0 [2%N].
Definition sessC : BroadcastSession := mkSession 3 0 [1%N].

(** Stakes 10 and 30 for the addresses of [sessA] and [sessB]. *)
Definition stakesAB : gmap (list N) Z :=
  {[ sessAddr sessA := 10; sessAddr sessB := 30 ]}.

(** A stake reader that answers [stakesAB], and a draw of 25. *)
Definition envAB : Env := envOf (fun _ _ => Some stakesAB) 25.

(** A stake reader that answers the stakes of [stakesAB] for the addresses
    that it is asked about, and a draw of 25. *)
Definition envAsked : Env :=
  envOf (fun _ addrs => Some (filter (fun kv => kv.1 ∈ addrs) stakesAB)) 25.

(** A stake reader that fails. *)
Definition envFail : Env := envOf (fun _ _ => None) 0.

(** A stake reader that answers a negative stake for [sessA]. *)
Definition envNegative (k : Z) : Env :=
  envOf (fun _ _ => Some {[ sessAddr sessA := -5 ]}) k.

(** A stake reader that knows no stake. *)
Definition envZero : Env := envOf (fun _ _ => Some ∅) 0.

(** The selector of the scenario of the specification: threshold 50, one
    known session of score 80, two sessions without a score, no stake
    reader. *)
Definition selScenario : MinLSSelector :=
  mkMinLS [sessA; sessB] [mkSession 9 80 []] None 50.

(** A selector with a stake reader and three sessions without a score. *)
Definition selABC : MinLSSelector := mkMinLS [sessA; sessB; sessC] [] (Some 7%nat) 50.

(** A selector completed with the scores 5, NaN, 6, 0, 7 and 1, in this
    order. *)
Definition selNaN : MinLSSelector :=
  foldl MinLS.Complete (MinLS.NewMinLSSelector None 100)
    [mkSession 1 5 []; mkSession 2 nan []; mkSession 3 6 [];
     mkSession 4 0 []; mkSession 5 7 []; mkSession 6 1 []].

(** A selector of threshold 1 completed with the scores NaN and 5, in this
    order, to which [sessA] is added. *)
Definition selNaNRoot : MinLSSelector :=
  MinLS.Add
    (foldl MinLS.Complete (MinLS.NewMinLSSelector None 1)
       [mkSession 1 nan []; mkSession 2 5 []])
    [sessA].

(** A selector of threshold 1 completed with the scores NaN and 0, in this
    order. *)
Definition selNaNLow : MinLSSelector :=
  foldl MinLS.Complete (MinLS.NewMinLSSelector None 1)
    [mkSession 1 nan []; mkSession 2 0 []].

(** A selector completed with the scores 3, 1 and 2. *)
Definition selScored : MinLSSelector :=
  foldl MinLS.Complete (MinLS.NewMinLSSelector None 100)
    [mkSession 1 3 []; mkSession 2 1 []; mkSession 3 2 []].

(** ** LIFOSelector: proofs *)

Section LIFO_facts.
Import LIFO.

Lemma Select_snoc (s : LIFOSelector) (x : BroadcastSession) :
  Select (s ++ [x]) = Ret (x, s).
Proof.
  unfold Select. rewrite length_app, Nat.add_1_r. cbn beta iota.
  rewrite lookup_app_r by lia. rewrite Nat.sub_diag. simpl.
  by rewrite take_app_length.
Qed.

Lemma nonempty_snoc (s : LIFOSelector) :
  (0 < length s)%nat -> exists s' x, s = s' ++ [x].
Proof.
  destruct s as [|y s] using rev_ind; simpl; [lia|]. intros _. by exists s, y.
Qed.

End LIFO_facts.

(** C10. [Complete(x)] followed by [Select()] returns [x] and leaves the
    selector as it was before [Complete], whatever it holds, the empty
    selector included. *)
Theorem LIFO_Complete_Select (s : LIFOSelector) (x : BroadcastSession) :
  LIFO.Select (LIFO.Complete s x) = Ret (x, s).
Proof. apply Select_snoc. Qed.

(** C9. On a selector with [Size() > 0], [Select] does not panic: it returns
    the element at the back, the selector left is the sequence of the other
    elements in their order, and [Size()] has decreased by one. *)
Theorem LIFO_Select_total (s : LIFOSelector) :
  (0 < LIFO.Size s)%nat ->
  exists sess s',
    LIFO.Select s = Ret (sess, s') /\
    s = s' ++ [sess] /\
    last s = Some sess /\
    LIFO.Size s' = (LIFO.Size s - 1)%nat.
Proof.
  intros Hpos. destruct (nonempty_snoc s Hpos) as (s' & x & ->).
  exists x, s'. split; [apply Select_snoc|]. split; [done|]. split.
  - apply last_snoc.
  - unfold LIFO.Size. rewrite length_app. simpl. lia.
Qed.

Lemma LIFO_Select_total_witness :
  exists sess s',
    LIFO.Select [mkSession 1 0 []; mkSession 2 0 []] = Ret (sess, s') /\
    [mkSession 1 0 []; mkSession 2 0 []] = s' ++ [sess] /\
    last [mkSession 1 0 []; mkSession 2 0 []] = Some sess /\
    LIFO.Size s' = (LIFO.Size [mkSession 1 0 []; mkSession 2 0 []] - 1)%nat.
Proof. apply (LIFO_Select_total [mkSession 1 0 []; mkSession 2 0 []]). simpl. lia. Defined.

(** C5, as the code behaves. After [Add([A, B])] on an empty selector,
    [Select()] returns [B], the back of the list, and leaves [A]; after
    [Complete(C)] the next [Select()] returns [C]. *)
Theorem LIFO_warm_reuse (A B C : BroadcastSession) :
  LIFO.Select (LIFO.Add [] [A; B]) = Ret (B, [A]) /\
  LIFO.Select (LIFO.Complete [A] C) = Ret (C, [A]).
Proof. split; reflexivity. Qed.

(** C5 fails as stated: with two different sessions [A] and [B], the
    [Select()] that follows [Add([A, B])] returns [B], not [A]. *)
Lemma LIFO_warm_reuse_returns_B :
  mkSession 1 0 [] <> mkSession 2 0 [] /\
  LIFO.Select (LIFO.Add [] [mkSession 1 0 []; mkSession 2 0 []])
    = Ret (mkSession 2 0 [], [mkSession 1 0 []]).
Proof. split; [discriminate | reflexivity]. Qed.

(** ** The order of the scores *)

Section float_order.

Local Ltac cmp_cases :=
  repeat match goal with
  | |- context [Pos.compare_cont Eq ?a ?b] =>
      change (Pos.compare_cont Eq a b) with (Pos.compare a b)
  | |- context [Z.compare ?a ?b] => destruct (Z.compare_spec a b)
  | |- context [Pos.compare ?a ?b] => destruct (Pos.compare_spec a b)
  end.

Local Ltac by_cases :=
  unfold SFleb, SFltb, SFcompare; simpl; try congruence;
  cmp_cases; simpl; try congruence; try lia.

Lemma SFltb_asym x y : SFltb x y = true -> SFltb y x = false.
Proof.
  destruct x as [[]|[]| |[] mx ex], y as [[]|[]| |[] my ey]; by_cases.
Qed.

Lemma SFleb_not_gt x y : SFleb x y = true -> SFltb y x = false.
Proof.
  destruct x as [[]|[]| |[] mx ex], y as [[]|[]| |[] my ey]; by_cases.
Qed.

Lemma SFltb_trans x y z :
  SFltb x y = true -> SFltb y z = true -> SFltb x z = true.
Proof.
  destruct x as [[]|[]| |[] mx ex], y as [[]|[]| |[] my ey],
    z as [[]|[]| |[] mz ez]; by_cases.
Qed.

Lemma SFltb_negtrans x y z :
  y <> S754_nan ->
  SFltb y x = false -> SFltb z y = false -> SFltb z x = false.
Proof.
  destruct x as [[]|[]| |[] mx ex], y as [[]|[]| |[] my ey],
    z as [[]|[]| |[] mz ez]; by_cases.
Qed.

Lemma SFleb_total x y :
  x <> S754_nan -> y <> S754_nan -> SFltb y x = false -> SFleb x y = true.
Proof.
  destruct x as [[]|[]| |[] mx ex], y as [[]|[]| |[] my ey]; by_cases.
Qed.

Lemma SFleb_ltb_trans x y z :
  SFleb x y = true -> SFltb y z = true -> SFltb x z = true.
Proof.
  destruct x as [[]|[]| |[] mx ex], y as [[]|[]| |[] my ey],
    z as [[]|[]| |[] mz ez]; by_cases.
Qed.

Lemma scored_SF (x : BroadcastSession) :
  scored x -> Prim2SF (LatencyScore x) <> S754_nan.
Proof.
  unfold scored, PrimFloat.is_nan. rewrite FloatAxioms.eqb_spec. intros H E.
  rewrite E in H. discriminate.
Qed.

Lemma scoreLt_asym a b : scoreLt a b = true -> scoreLt b a = false.
Proof. unfold scoreLt. rewrite !FloatAxioms.ltb_spec. apply SFltb_asym. Qed.

Lemma scoreLt_irrefl a : scoreLt a a = false.
Proof.
  destruct (scoreLt a a) eqn:E; [|done]. by rewrite (scoreLt_asym _ _ E) in E.
Qed.

Lemma scoreLt_trans a b c :
  scoreLt a b = true -> scoreLt b c = true -> scoreLt a c = true.
Proof. unfold scoreLt. rewrite !FloatAxioms.ltb_spec. apply SFltb_trans. Qed.

Lemma scoreLt_negtrans a b c :
  scored b -> scoreLt b a = false -> scoreLt c b = false -> scoreLt c a = false.
Proof.
  intros Hb. unfold scoreLt. rewrite !FloatAxioms.ltb_spec.
  apply SFltb_negtrans. by apply scored_SF.
Qed.

Lemma scoreLe_of_not_lt a b :
  scored a -> scored b -> scoreLt b a = false -> scoreLe a b = true.
Proof.
  intros Ha Hb. unfold scoreLt, scoreLe. rewrite FloatAxioms.ltb_spec, FloatAxioms.leb_spec.
  apply SFleb_total; by apply scored_SF.
Qed.

Lemma scoreLe_Lt_trans a b c :
  scoreLe a b = true -> scoreLt b c = true -> scoreLt a c = true.
Proof.
  unfold scoreLt, scoreLe. rewrite FloatAxioms.leb_spec, !FloatAxioms.ltb_spec.
  apply SFleb_ltb_trans.
Qed.

Lemma leb_not_gt (x t : float) :
  PrimFloat.leb x t = true -> PrimFloat.ltb t x = false.
Proof. rewrite FloatAxioms.leb_spec, FloatAxioms.ltb_spec. apply SFleb_not_gt. Qed.

End float_order.

(** ** sessHeap and container/heap: what the operations keep *)

Lemma parent_spec k : (2 * heap.parent k <= k - 1 <= 2 * heap.parent k + 1)%nat.
Proof.
  unfold heap.parent. pose proof (Nat.div_mod_eq (k - 1) 2).
  pose proof (Nat.mod_upper_bound (k - 1) 2). lia.
Qed.

(** Linear arithmetic with the bounds of every [heap.parent k] at hand. *)
Ltac parent_lia :=
  repeat match goal with
  | |- context [heap.parent ?k] =>
      lazymatch goal with
      | _ : (2 * heap.parent k <= k - 1 <= 2 * heap.parent k + 1)%nat |- _ => fail
      | _ => pose proof (parent_spec k)
      end
  | _ : context [heap.parent ?k] |- _ =>
      lazymatch goal with
      | _ : (2 * heap.parent k <= k - 1 <= 2 * heap.parent k + 1)%nat |- _ => fail
      | _ => pose proof (parent_spec k)
      end
  end; lia.

Section heap_structure.
Import sessHeap heap.

Lemma Swap_length h i j : length (Swap h i j) = length h.
Proof.
  unfold Swap. destruct (h !! i), (h !! j); try done.
  by rewrite !length_insert.
Qed.

Lemma Swap_perm h i j : Swap h i j ≡ₚ h.
Proof.
  unfold Swap. destruct (h !! i) eqn:Ei, (h !! j) eqn:Ej; try done.
  by apply Permutation_insert_swap.
Qed.

Lemma Swap_lookup_other h i j k :
  k <> i -> k <> j -> Swap h i j !! k = h !! k.
Proof.
  intros Hi Hj. unfold Swap. destruct (h !! i), (h !! j); try done.
  by rewrite !list_lookup_insert_ne.
Qed.

Lemma Swap_lookup_l h i j a b :
  h !! i = Some a -> h !! j = Some b -> Swap h i j !! i = Some b.
Proof.
  intros Hi Hj. unfold Swap. rewrite Hi, Hj.
  destruct (decide (i = j)) as [->|Hne].
  - rewrite list_lookup_insert_eq; [congruence|].
    rewrite length_insert. by eapply lookup_lt_Some.
  - rewrite list_lookup_insert_ne by done.
    rewrite list_lookup_insert_eq; [done|]. by eapply lookup_lt_Some.
Qed.

Lemma Swap_lookup_r h i j a b :
  h !! i = Some a -> h !! j = Some b -> Swap h i j !! j = Some a.
Proof.
  intros Hi Hj. unfold Swap. rewrite Hi, Hj.
  rewrite list_lookup_insert_eq; [done|].
  rewrite length_insert. by eapply lookup_lt_Some.
Qed.

Lemma down_loop_length fuel h i n : length (down_loop fuel h i n) = length h.
Proof.
  revert h i. induction fuel as [|fuel IH]; intros h i; simpl; [done|].
  repeat case_match; try done; by rewrite IH, Swap_length.
Qed.

Lemma down_loop_perm fuel h i n : down_loop fuel h i n ≡ₚ h.
Proof.
  revert h i. induction fuel as [|fuel IH]; intros h i; simpl; [done|].
  repeat case_match; try done; by rewrite IH, Swap_perm.
Qed.

(** [down] works on the first [n] entries only. *)
Lemma down_loop_lookup_ge fuel h i n k :
  (n <= k)%nat -> down_loop fuel h i n !! k = h !! k.
Proof.
  revert h i. induction fuel as [|fuel IH]; intros h i Hk; cbn [down_loop]; [done|].
  destruct (n <=? 2 * i + 1)%nat eqn:E1; [done|]. apply Nat.leb_gt in E1.
  destruct ((2 * i + 1 + 1 <? n)%nat && Less h (2 * i + 1 + 1) (2 * i + 1)) eqn:E2.
  - apply andb_true_iff in E2 as [E2 _]. apply Nat.ltb_lt in E2.
    destruct (negb _); [done|]. rewrite IH by done.
    apply Swap_lookup_other; lia.
  - destruct (negb _); [done|]. rewrite IH by done.
    apply Swap_lookup_other; lia.
Qed.

Lemma up_loop_length fuel h j : length (up_loop fuel h j) = length h.
Proof.
  revert h j. induction fuel as [|fuel IH]; intros h j; simpl; [done|].
  case_match; try done. by rewrite IH, Swap_length.
Qed.

Lemma up_loop_perm fuel h j : up_loop fuel h j ≡ₚ h.
Proof.
  revert h j. induction fuel as [|fuel IH]; intros h j; simpl; [done|].
  case_match; try done. by rewrite IH, Swap_perm.
Qed.

(** The fuel of [up] does not run out: any fuel above [j] gives the same
    result. *)
Lemma up_loop_fuel fuel1 fuel2 h j :
  (j < fuel1)%nat -> (j < fuel2)%nat -> up_loop fuel1 h j = up_loop fuel2 h j.
Proof.
  revert fuel2 h j. induction fuel1 as [|fuel1 IH]; intros fuel2 h j H1 H2; [lia|].
  destruct fuel2 as [|fuel2]; [lia|]. cbn [up_loop].
  destruct (parent j =? j)%nat eqn:E; [done|]. apply Nat.eqb_neq in E.
  cbn [orb]. destruct (negb _); [done|].
  apply IH; parent_lia.
Qed.

(** The fuel of [down] does not run out either: any fuel above [n - i - 1]
    gives the same result. *)
Lemma down_loop_fuel fuel1 fuel2 h i n :
  (n - i <= fuel1)%nat -> (n - i <= fuel2)%nat ->
  down_loop fuel1 h i n = down_loop fuel2 h i n.
Proof.
  revert fuel2 h i. induction fuel1 as [|fuel1 IH]; intros fuel2 h i H1 H2.
  - destruct fuel2 as [|fuel2]; [done|]. cbn [down_loop].
    assert ((n <=? 2 * i + 1)%nat = true) as -> by (apply Nat.leb_le; lia). done.
  - destruct fuel2 as [|fuel2].
    + cbn [down_loop]. assert ((n <=? 2 * i + 1)%nat = true) as -> by (apply Nat.leb_le; lia). done.
    + cbn [down_loop]. destruct (n <=? 2 * i + 1)%nat eqn:E1; [done|]. apply Nat.leb_gt in E1.
      destruct (negb _); [done|].
      destruct (_ && _); apply IH; lia.
Qed.

Lemma Pop_root x t :
  exists h', heap.Pop (x :: t) = Ret (x, h') /\ x :: t ≡ₚ x :: h' /\ length h' = length t.
Proof.
  unfold heap.Pop, Len. cbn [length].
  replace (S (length t) - 1)%nat with (length t) by lia.
  set (n := length t).
  set (h1 := Swap (x :: t) 0 n).
  assert (length h1 = S n) as Hlen by (unfold h1; by rewrite Swap_length).
  assert (h1 !! n = Some x) as Hx.
  { destruct (lookup_lt_is_Some_2 (x :: t) n) as [b Hb]; [simpl; lia|].
    unfold h1. by eapply Swap_lookup_r. }
  unfold sessHeap.Pop, down. rewrite down_loop_length, Hlen.
  replace (S n - 1)%nat with n by lia.
  rewrite down_loop_lookup_ge, Hx by done.
  eexists. split; [done|].
  assert (length (down_loop n h1 0 n) = S n) as Hlen' by by rewrite down_loop_length.
  assert (down_loop n h1 0 n = take n (down_loop n h1 0 n) ++ [x]) as Hsplit.
  { rewrite <- (take_drop n (down_loop n h1 0 n)) at 1. f_equal.
    apply list_eq. intros k. rewrite lookup_drop.
    destruct k as [|k].
    - rewrite Nat.add_0_r, down_loop_lookup_ge by done. by rewrite Hx.
    - simpl. apply lookup_ge_None. lia. }
  split.
  - rewrite (Permutation_cons_append (take n _) x), <- Hsplit.
    rewrite down_loop_perm. unfold h1. by rewrite Swap_perm.
  - rewrite length_take. lia.
Qed.

End heap_structure.

(** ** container/heap keeps the array ordered *)

Section heap_order.
Import sessHeap heap.

Lemma Less_lookup h i j a b :
  h !! i = Some a -> h !! j = Some b -> Less h i j = scoreLt a b.
Proof. intros Hi Hj. unfold Less. by rewrite Hi, Hj. Qed.

Lemma Swap_scored h i j : Forall scored h -> Forall scored (Swap h i j).
Proof. intros H. by rewrite Swap_perm. Qed.

Lemma scored_lookup h k x : Forall scored h -> h !! k = Some x -> scored x.
Proof. intros H Hk. by eapply Forall_lookup_1. Qed.

(** What an entry of [Swap h i j] was in [h]. *)
Lemma Swap_lookup_inv h i j a b k x :
  h !! i = Some a -> h !! j = Some b -> Swap h i j !! k = Some x ->
  (k = i /\ x = b) \/ (k = j /\ x = a) \/ (k <> i /\ k <> j /\ h !! k = Some x).
Proof.
  intros Hi Hj Hk.
  destruct (decide (k = j)) as [->|Hkj].
  { rewrite (Swap_lookup_r h i j a b Hi Hj) in Hk. right; left. split; congruence. }
  destruct (decide (k = i)) as [->|Hki].
  { rewrite (Swap_lookup_l h i j a b Hi Hj) in Hk. left. split; congruence. }
  rewrite Swap_lookup_other in Hk by done. tauto.
Qed.

Lemma up_loop_ordered fuel h j :
  (j < fuel)%nat -> (j < length h)%nat -> Forall scored h ->
  upInv h j -> minHeap (up_loop fuel h j).
Proof.
  revert h j. induction fuel as [|fuel IH]; intros h j Hfuel Hj Hsc [Ha Hb]; [lia|].
  cbn [up_loop].
  destruct (lookup_lt_is_Some_2 h j Hj) as [a Hja].
  destruct (lookup_lt_is_Some_2 h (parent j)) as [b Hib]; [parent_lia|].
  rewrite (Less_lookup h j (parent j) a b Hja Hib).
  destruct (parent j =? j)%nat eqn:E; cbn [orb].
  { apply Nat.eqb_eq in E. intros k x p Hk Hx Hp.
    apply (Ha k x p); [done|parent_lia|done|done]. }
  apply Nat.eqb_neq in E.
  destruct (scoreLt a b) eqn:Hlt; cbn [negb].
  2:{ intros k x p Hk Hx Hp. destruct (decide (k = j)) as [->|Hne].
      - congruence.
      - by apply (Ha k x p). }
  assert (0 < j)%nat as Hj0 by parent_lia.
  assert (parent j < j)%nat as Hpj by parent_lia.
  apply IH; [lia| rewrite Swap_length; lia | by apply Swap_scored |].
  split.
  - intros k x p Hk Hne Hx Hp.
    apply (Swap_lookup_inv h _ _ b a) in Hx as [[-> ->]|[[-> ->]|(Hk1 & Hk2 & Hx)]];
      try done.
    + (* k = j: its parent holds the old [j] *)
      rewrite (Swap_lookup_l h _ _ b a Hib Hja) in Hp. injection Hp as <-.
      by apply scoreLt_asym.
    + apply (Swap_lookup_inv h _ _ b a) in Hp as [[Hp ->]|[[Hp ->]|(Hp1 & Hp2 & Hp)]];
        try done.
      * (* a sibling of [j] *)
        destruct (scoreLt x a) eqn:Hxa; [|done].
        assert (scoreLt x b = true) as Hxb by by eapply scoreLt_trans.
        rewrite (Ha k x b) in Hxb; [done|done|done|done|congruence].
      * (* a child of [j] *)
        apply (Hb k x b); done.
      * by apply (Ha k x p).
  - intros k x g Hi0 Hpk Hx Hg.
    assert (parent (parent j) < parent j)%nat by parent_lia.
    rewrite Swap_lookup_other in Hg by lia.
    assert (scoreLt b g = false) as Hbg by (apply (Ha (parent j) b g); [done|lia|done|done]).
    apply (Swap_lookup_inv h _ _ b a) in Hx as [[-> ->]|[[-> ->]|(Hk1 & Hk2 & Hx)]];
      try done.
    + parent_lia.
    + apply (scoreLt_negtrans g b x); [by eapply scored_lookup|done|].
      apply (Ha k x b); [parent_lia|done|done|congruence].
Qed.

Lemma Push_ordered h x :
  Forall scored h -> scored x -> minHeap h -> minHeap (heap.Push h x).
Proof.
  intros Hsc Hx Hord. unfold heap.Push, sessHeap.Push, Len, up.
  rewrite length_app. simpl length.
  replace (length h + 1 - 1)%nat with (length h) by lia.
  apply up_loop_ordered; [lia|rewrite length_app; simpl; lia| |].
  { apply Forall_app. split; [done|by constructor]. }
  split.
  - intros k y p Hk Hne Hy Hp.
    assert (k < length h)%nat.
    { apply lookup_lt_Some in Hy. rewrite length_app in Hy. simpl in Hy. lia. }
    rewrite lookup_app_l in Hy by done.
    rewrite lookup_app_l in Hp by parent_lia.
    by apply (Hord k y p).
  - intros k y g Hj0 Hpk Hy Hg.
    apply lookup_lt_Some in Hy. rewrite length_app in Hy. simpl in Hy. parent_lia.
Qed.

Lemma down_loop_ordered fuel h i n :
  (n - i <= fuel)%nat -> (n <= length h)%nat -> Forall scored h ->
  downInv n h i -> minHeapUpTo n (down_loop fuel h i n).
Proof.
  revert h i. induction fuel as [|fuel IH]; intros h i Hfuel Hn Hsc [Ha Hb].
  { cbn [down_loop]. intros k x p Hk Hx Hp.
    apply (Ha k x p); [done|parent_lia|done|done]. }
  cbn [down_loop].
  destruct (n <=? 2 * i + 1)%nat eqn:E1.
  { apply Nat.leb_le in E1. intros k x p Hk Hx Hp.
    apply (Ha k x p); [done|parent_lia|done|done]. }
  apply Nat.leb_gt in E1.
  destruct (lookup_lt_is_Some_2 h i) as [a Hia]; [lia|].
  destruct (lookup_lt_is_Some_2 h (2 * i + 1)) as [c1 Hc1]; [lia|].
  set (j := if ((2 * i + 1 + 1 <? n)%nat && Less h (2 * i + 1 + 1) (2 * i + 1))
            then (2 * i + 1 + 1)%nat else (2 * i + 1)%nat).
  (* [j] is the smaller child of [i] among those below [n] *)
  assert (exists c, h !! j = Some c /\ (j = 2 * i + 1 \/ j = 2 * i + 2)%nat /\ (j < n)%nat /\
            forall k y, (k < n)%nat -> parent k = i -> (0 < k)%nat ->
              h !! k = Some y -> scoreLt y c = false) as (c & Hjc & Hjeq & Hjn & Hmin).
  { unfold j. destruct (2 * i + 1 + 1 <? n)%nat eqn:E2; cbn [andb].
    - apply Nat.ltb_lt in E2.
      destruct (lookup_lt_is_Some_2 h (2 * i + 1 + 1)) as [c2 Hc2]; [lia|].
      rewrite (Less_lookup h _ _ c2 c1 Hc2 Hc1).
      destruct (scoreLt c2 c1) eqn:Hlt.
      + exists c2. split; [done|]. split; [lia|]. split; [done|].
        intros k y Hk Hpk Hk0 Hy.
        assert (k = 2 * i + 1 \/ k = 2 * i + 1 + 1)%nat as [->| ->] by parent_lia.
        * replace y with c1 by congruence. by apply scoreLt_asym.
        * replace y with c2 by congruence. apply scoreLt_irrefl.
      + exists c1. split; [done|]. split; [lia|]. split; [done|].
        intros k y Hk Hpk Hk0 Hy.
        assert (k = 2 * i + 1 \/ k = 2 * i + 1 + 1)%nat as [->| ->] by parent_lia.
        * replace y with c1 by congruence. apply scoreLt_irrefl.
        * replace y with c2 by congruence. done.
    - apply Nat.ltb_ge in E2. exists c1. split; [done|]. split; [lia|]. split; [done|].
      intros k y Hk Hpk Hk0 Hy.
      assert (k = 2 * i + 1)%nat as -> by parent_lia.
      replace y with c1 by congruence. apply scoreLt_irrefl. }
  clearbody j.
  assert (parent j = i) as Hpj by parent_lia.
  rewrite (Less_lookup h j i c a Hjc Hia).
  destruct (scoreLt c a) eqn:Hlt; cbn [negb].
  2:{ (* no child of [i] is smaller than [i] *)
      intros k x p Hk Hx Hp.
      destruct (decide (parent k = i)) as [Hpk|Hpk]; [|by apply (Ha k x p)].
      rewrite Hpk in Hp. replace p with a by congruence.
      apply (scoreLt_negtrans a c x); [by eapply scored_lookup|done|].
      apply (Hmin k x); [lia|done|lia|done]. }
  apply IH; [lia|by rewrite Swap_length|by apply Swap_scored|].
  split.
  - intros k x p Hk Hne Hx Hp.
    apply (Swap_lookup_inv h _ _ a c) in Hx as [[-> ->]|[[-> ->]|(Hk1 & Hk2 & Hx)]];
      try done.
    + (* k = i: its parent is untouched *)
      rewrite Swap_lookup_other in Hp by parent_lia.
      apply (Hb j c p); [lia|done|done|done|done].
    + (* k = j: its parent holds the old [j] *)
      rewrite Hpj, (Swap_lookup_l h _ _ a c Hia Hjc) in Hp. injection Hp as <-.
      by apply scoreLt_asym.
    + apply (Swap_lookup_inv h _ _ a c) in Hp as [[Hp ->]|[[Hp ->]|(Hp1 & Hp2 & Hp)]];
        try done.
      * (* the other child of [i] *)
        apply (Hmin k x); [lia|done|lia|done].
      * by apply (Ha k x p).
  - intros k x g Hj0 Hk Hpk Hx Hg.
    rewrite Hpj, (Swap_lookup_l h _ _ a c Hia Hjc) in Hg. injection Hg as <-.
    rewrite Swap_lookup_other in Hx by parent_lia.
    apply (Ha k x c); [parent_lia|parent_lia|done|congruence].
Qed.

Lemma minHeapUpTo_take n h :
  (n <= length h)%nat -> minHeapUpTo n h -> minHeap (take n h).
Proof.
  intros Hn Hord k x p Hk Hx Hp.
  apply lookup_take_Some in Hx as [Hx Hkn].
  apply lookup_take_Some in Hp as [Hp _].
  apply (Hord k x p); [lia|done|done].
Qed.

Lemma Pop_ordered h x h' :
  Forall scored h -> minHeap h -> heap.Pop h = Ret (x, h') -> minHeap h'.
Proof.
  intros Hsc Hord. destruct h as [|r t]; [done|].
  unfold heap.Pop, Len. cbn [length].
  replace (S (length t) - 1)%nat with (length t) by lia.
  set (n := length t). set (h1 := Swap (r :: t) 0 n).
  assert (length h1 = S n) as Hlen by (unfold h1; by rewrite Swap_length).
  unfold sessHeap.Pop, down. rewrite down_loop_length, Hlen.
  replace (S n - 1)%nat with n by lia.
  destruct (down_loop n h1 0 n !! n); [|done]. intros [= _ <-].
  apply minHeapUpTo_take; [rewrite down_loop_length; lia|].
  apply down_loop_ordered; [lia|lia|by apply Swap_scored|].
  split; [|intros; lia].
  intros k y p Hk Hne Hy Hp. unfold h1 in *.
  rewrite Swap_lookup_other in Hy by lia.
  rewrite Swap_lookup_other in Hp by parent_lia.
  apply (Hord k y p); [lia|done|done].
Qed.

(** The root of an ordered array is not above any entry. *)
Lemma root_is_min h r :
  Forall scored h -> minHeap h -> h !! 0%nat = Some r ->
  forall y, y ∈ h -> scoreLe r y = true.
Proof.
  intros Hsc Hord Hr.
  assert (forall k y, h !! k = Some y -> scoreLt y r = false) as Hnot.
  { intros k. induction k as [k IH] using lt_wf_ind. intros y Hy.
    destruct (decide (k = 0%nat)) as [->|Hk].
    - replace y with r by congruence. apply scoreLt_irrefl.
    - destruct (lookup_lt_is_Some_2 h (parent k)) as [p Hp].
      { apply lookup_lt_Some in Hy. parent_lia. }
      apply (scoreLt_negtrans r p y); [by eapply scored_lookup| |].
      + apply (IH (parent k)); [parent_lia|done].
      + apply (Hord k y p); [lia|done|done]. }
  intros y Hy. apply list_elem_of_lookup in Hy as [k Hk].
  apply scoreLe_of_not_lt; [by eapply scored_lookup|by eapply scored_lookup|].
  by eapply Hnot.
Qed.

End heap_order.

(** ** int64 arithmetic *)

Section int64.

Lemma wrap64_small z : - 2 ^ 63 <= z < 2 ^ 63 -> wrap64 z = z.
Proof. intros H. unfold wrap64. rewrite Z.mod_small; lia. Qed.

Lemma wrap64_range z : - 2 ^ 63 <= wrap64 z < 2 ^ 63.
Proof. unfold wrap64. pose proof (Z.mod_pos_bound (z + 2 ^ 63) (2 ^ 64)). lia. Qed.

Lemma wrap64_add_l a b : wrap64 (wrap64 a + b) = wrap64 (a + b).
Proof.
  unfold wrap64. f_equal.
  replace ((a + 2 ^ 63) mod 2 ^ 64 - 2 ^ 63 + b + 2 ^ 63)
    with ((a + 2 ^ 63) mod 2 ^ 64 + b) by lia.
  rewrite Zplus_mod_idemp_l. f_equal. lia.
Qed.

Lemma wrap64_sub_l a b : wrap64 (wrap64 a - b) = wrap64 (a - b).
Proof. apply (wrap64_add_l a (- b)). Qed.

Lemma wrap64_le z : 0 <= z -> wrap64 z <= z.
Proof.
  intros H. unfold wrap64.
  pose proof (Z.mod_le (z + 2 ^ 63) (2 ^ 64)). lia.
Qed.

End int64.

(** ** Selection among the sessions without a score *)

Section unknown_selection.
Import MinLS.

Lemma totalStakeOf_insert (stakes : gmap (list N) Z) a v :
  stakes !! a = None ->
  totalStakeOf (<[a := v]> stakes) = wrap64 (totalStakeOf stakes + v).
Proof.
  intros Ha. unfold totalStakeOf.
  rewrite (map_fold_insert_L (fun _ stake acc => wrap64 (acc + stake))); [done| |done].
  intros j1 j2 z1 z2 y _ _ _. rewrite !wrap64_add_l. f_equal. lia.
Qed.

Lemma stakesTotal_insert (stakes : gmap (list N) Z) a v :
  stakes !! a = None ->
  stakesTotal (<[a := v]> stakes) = stakesTotal stakes + v.
Proof.
  intros Ha. unfold stakesTotal.
  rewrite (map_fold_insert_L (fun _ stake acc => acc + stake)); [done| |done].
  intros j1 j2 z1 z2 y _ _ _. lia.
Qed.

(** The total of the loop over the map is the sum of its stakes, as an
    [int64], whatever the order of the iteration. *)
Lemma totalStakeOf_sum (stakes : gmap (list N) Z) :
  totalStakeOf stakes = wrap64 (stakesTotal stakes).
Proof.
  induction stakes as [|a v m Ha IH] using map_ind.
  - unfold totalStakeOf, stakesTotal. by rewrite !map_fold_empty.
  - rewrite totalStakeOf_insert, stakesTotal_insert, IH by done.
    apply wrap64_add_l.
Qed.

Lemma running_0 stakes x l r :
  running stakes (x :: l) r 0 = wrap64 (r - sessStake stakes x).
Proof.
  unfold running. rewrite firstn_cons, take_0.
  cbn [fmap list_fmap sumZ foldr]. f_equal. lia.
Qed.

Lemma running_S stakes x l r m :
  running stakes (x :: l) r (S m)
  = running stakes l (wrap64 (r - sessStake stakes x)) m.
Proof.
  unfold running. rewrite (firstn_cons (S m)).
  cbn [fmap list_fmap sumZ foldr].
  rewrite wrap64_sub_l. f_equal. fold (sumZ (sessStake stakes <$> take (S m) l)). lia.
Qed.

(** The loop, entered at index [i] of the sessions [pre ++ rest]. *)
Lemma lottery_spec stakes pre rest r :
  match lottery stakes (sessAddr <$> (pre ++ rest)) r (length pre) rest with
  | Some w =>
      exists m, w = (length pre + m)%nat /\ (m < length rest)%nat /\
        running stakes rest r m <= 0 /\
        forall m', (m' < m)%nat -> 0 < running stakes rest r m'
  | None => forall m, (m < length rest)%nat -> 0 < running stakes rest r m
  end.
Proof.
  revert pre r. induction rest as [|x rest IH]; intros pre r.
  { simpl. intros m Hm. lia. }
  cbn [lottery].
  assert ((sessAddr <$> pre ++ x :: rest) !! length pre = Some (sessAddr x)) as ->.
  { rewrite list_lookup_fmap, lookup_app_r by lia. by rewrite Nat.sub_diag. }
  cbn [default from_option]. unfold id. fold (sessStake stakes x).
  destruct (wrap64 (r - sessStake stakes x) <=? 0) eqn:E.
  - apply Z.leb_le in E. cbv beta iota.
    exists 0%nat. split; [lia|]. split; [simpl; lia|].
    split; [by rewrite running_0|]. intros m' Hm'. lia.
  - apply Z.leb_gt in E. cbv beta iota.
    specialize (IH (pre ++ [x]) (wrap64 (r - sessStake stakes x))).
    rewrite <- app_assoc in IH. cbn [app] in IH.
    rewrite length_app in IH. cbn [length] in IH.
    replace (length pre + 1)%nat with (S (length pre)) in IH by lia.
    destruct (lottery _ _ _ _ rest) as [w|].
    + destruct IH as (m & -> & Hm & Hle & Hbefore).
      exists (S m). split; [lia|]. split; [simpl; lia|].
      split; [by rewrite running_S|].
      intros [|m'] Hm'; [by rewrite running_0|].
      rewrite running_S. apply Hbefore. lia.
    + intros [|m] Hm; [by rewrite running_0|].
      rewrite running_S. apply IH. simpl in Hm. lia.
Qed.

Lemma lottery_spec_0 stakes l r :
  match lottery stakes (sessAddr <$> l) r 0 l with
  | Some w => (w < length l)%nat /\ running stakes l r w <= 0 /\
        forall m', (m' < w)%nat -> 0 < running stakes l r m'
  | None => forall m, (m < length l)%nat -> 0 < running stakes l r m
  end.
Proof.
  pose proof (lottery_spec stakes [] l r) as H. cbn [app length] in H.
  destruct (lottery _ _ _ _ _); [|done].
  destruct H as (m & -> & H). by rewrite Nat.add_0_l.
Qed.

(** [removeAt] moves the last session into the place of the one removed. *)
Lemma removeAt_spec l i w :
  l !! i = Some w ->
  length (removeAt l i) = (length l - 1)%nat /\
  (forall k, (k < length l - 1)%nat ->
     removeAt l i !! k = if decide (k = i) then l !! (length l - 1)%nat else l !! k) /\
  l ≡ₚ w :: removeAt l i.
Proof.
  intros Hi. pose proof (lookup_lt_Some _ _ _ Hi) as Hlt.
  destruct (lookup_lt_is_Some_2 l (length l - 1)) as [z Hz]; [lia|].
  unfold removeAt. rewrite Hi, Hz.
  set (l2 := <[i := z]> (<[(length l - 1)%nat := w]> l)).
  assert (length l2 = length l) as Hlen2 by (unfold l2; by rewrite !length_insert).
  assert (l2 ≡ₚ l) as Hperm by (by apply Permutation_insert_swap).
  assert (l2 !! (length l - 1)%nat = Some w) as Hlast.
  { unfold l2. destruct (decide (i = (length l - 1)%nat)) as [->|Hne].
    - rewrite list_lookup_insert_eq by (rewrite length_insert; lia). congruence.
    - rewrite list_lookup_insert_ne by done.
      by rewrite list_lookup_insert_eq by lia. }
  split; [rewrite length_take; lia|]. split.
  - intros k Hk. rewrite lookup_take_lt by done. unfold l2.
    destruct (decide (k = i)) as [->|Hne].
    + by rewrite list_lookup_insert_eq by (rewrite length_insert; lia).
    + rewrite !list_lookup_insert_ne by lia. done.
  - assert (l2 = take (length l - 1) l2 ++ [w]) as Hsplit.
    { rewrite <- (take_drop (length l - 1) l2) at 1.
      f_equal. apply list_eq. intros [|k].
      + rewrite lookup_drop, Nat.add_0_r. done.
      + rewrite lookup_drop. simpl. apply lookup_ge_None. lia. }
    set (t := take (length l - 1) l2) in *. clearbody t.
    rewrite <- Hperm, Hsplit. symmetry. apply Permutation_cons_append.
Qed.

(** What a call that finds sessions without a score and a stake reader
    does, by the answer of the reader. *)
Lemma selectUnknownSession_oracle e s rdr :
  stakeRdr s = Some rdr -> unknownSessions s <> [] ->
  let addrs := sessAddr <$> unknownSessions s in
  match Stakes e rdr addrs with
  | None => selectUnknownSession e s = (None, s, [EvStakes rdr addrs; EvLogError])
  | Some stakes =>
      let total := totalStakeOf stakes in
      let r := if 0 <? total then Int63n e total else 0 in
      let log := EvStakes rdr addrs :: (if 0 <? total then [EvInt63n total] else []) in
      match lottery stakes addrs r 0 (unknownSessions s) with
      | Some i =>
          selectUnknownSession e s =
            (unknownSessions s !! i,
             mkMinLS (removeAt (unknownSessions s) i) (knownSessions s)
               (stakeRdr s) (minLS s), log)
      | None => selectUnknownSession e s = (None, s, log)
      end
  end.
Proof.
  intros Hrdr Hne. unfold selectUnknownSession.
  destruct (unknownSessions s) as [|x l] eqn:Hl; [done|]. rewrite Hrdr.
  change (map (fun sess => BytesToAddress (Recipient sess)) (x :: l))
    with (sessAddr <$> x :: l).
  cbv zeta. destruct (Stakes e rdr (sessAddr <$> x :: l)) as [stakes|]; [|done].
  destruct (0 <? totalStakeOf stakes); destruct (lottery _ _ _ _ _); done.
Qed.

(** Stakes that are not negative, with a draw that is not above their
    sum, always select a session. *)
Lemma lottery_wins stakes pre rest r :
  rest <> [] -> 0 <= r < 2 ^ 63 ->
  Forall (fun x => 0 <= sessStake stakes x < 2 ^ 63) rest ->
  r <= sumZ (sessStake stakes <$> rest) ->
  is_Some (lottery stakes (sessAddr <$> (pre ++ rest)) r (length pre) rest).
Proof.
  revert pre r. induction rest as [|x rest IH]; intros pre r Hne Hr Hst Hsum; [done|].
  cbn [lottery].
  assert ((sessAddr <$> pre ++ x :: rest) !! length pre = Some (sessAddr x)) as ->.
  { rewrite list_lookup_fmap, lookup_app_r by lia. by rewrite Nat.sub_diag. }
  cbn [default from_option]. unfold id. fold (sessStake stakes x).
  apply Forall_cons in Hst as [Hx Hst].
  rewrite wrap64_small by lia.
  destruct (r - sessStake stakes x <=? 0) eqn:E; [done|]. apply Z.leb_gt in E.
  cbn [fmap list_fmap sumZ foldr] in Hsum.
  fold (sumZ (sessStake stakes <$> rest)) in Hsum.
  specialize (IH (pre ++ [x]) (r - sessStake stakes x)).
  rewrite <- app_assoc, length_app in IH. cbn [app length] in IH.
  replace (length pre + 1)%nat with (S (length pre)) in IH by lia.
  apply IH; [|lia|done|lia].
  intros ->. simpl in Hsum. lia.
Qed.

Lemma stakeOf_insert stakes a v b :
  stakeOf (<[a := v]> stakes) b = if decide (a = b) then v else stakeOf stakes b.
Proof. unfold stakeOf. rewrite lookup_insert. by destruct (decide (a = b)). Qed.

(** Every stake of the map is the stake of a session at least, when the
    keys of the map are addresses of the sessions. *)
Lemma stakesTotal_le_sessions (stakes : gmap (list N) Z) (l : list BroadcastSession) :
  (forall a v, stakes !! a = Some v -> a ∈ sessAddr <$> l /\ 0 <= v) ->
  stakesTotal stakes <= sumZ (sessStake stakes <$> l) /\
  0 <= stakesTotal stakes.
Proof.
  induction stakes as [|a v m Ha IH] using map_ind; intros Hkeys.
  - unfold stakesTotal. rewrite map_fold_empty. split; [|done].
    clear Hkeys. induction l as [|x l IHl]; [done|].
    cbn [fmap list_fmap sumZ foldr]. fold (sumZ (sessStake ∅ <$> l)).
    unfold sessStake at 1, stakeOf. rewrite lookup_empty. simpl. lia.
  - rewrite stakesTotal_insert by done.
    destruct (Hkeys a v) as [Hin Hv]; [by rewrite lookup_insert_eq|].
    destruct IH as [IH1 IH2].
    { intros b w Hb. apply (Hkeys b w). rewrite lookup_insert_ne; [done|].
      intros ->. congruence. }
    split; [|lia].
    assert (forall l', sumZ (sessStake (<[a:=v]> m) <$> l')
              = sumZ (sessStake m <$> l')
                + v * Z.of_nat (length (filter (fun x => sessAddr x = a) l'))) as Hsplit.
    { induction l' as [|x l' IHl']; [simpl; lia|].
      cbn [fmap list_fmap sumZ foldr]. fold (sumZ (sessStake (<[a:=v]> m) <$> l')).
      fold (sumZ (sessStake m <$> l')). rewrite IHl'.
      unfold sessStake at 1. rewrite stakeOf_insert.
      rewrite filter_cons.
      destruct (decide (a = sessAddr x)) as [->|Hne].
      - rewrite decide_True by done. cbn [length].
        unfold sessStake at 2, stakeOf. rewrite Ha. simpl. lia.
      - rewrite decide_False by congruence. unfold sessStake. lia. }
    rewrite Hsplit.
    assert (0 < length (filter (fun x => sessAddr x = a) l))%nat.
    { apply list_elem_of_fmap in Hin as (x & -> & Hx).
      assert (x ∈ filter (fun y => sessAddr y = sessAddr x) l) as Hf
        by (by apply list_elem_of_filter).
      destruct (filter _ l); [by apply elem_of_nil in Hf|simpl; lia]. }
    nia.
Qed.

(** With a stake reader that answers as [wellBehaved] says, the selection
    among sessions without a score never comes back empty-handed. *)
Lemma lottery_wellBehaved e rdr l stakes :
  l <> [] ->
  Stakes e rdr (sessAddr <$> l) = Some stakes ->
  (forall a v, stakes !! a = Some v -> a ∈ sessAddr <$> l /\ 0 <= v < 2 ^ 63) ->
  let total := totalStakeOf stakes in
  let r := if 0 <? total then Int63n e total else 0 in
  is_Some (lottery stakes (sessAddr <$> l) r 0 l).
Proof.
  intros Hne Hst Hkeys total r.
  destruct (stakesTotal_le_sessions stakes l) as [Hle Hpos].
  { intros a v Hav. destruct (Hkeys a v Hav). split; [done|lia]. }
  assert (Forall (fun x => 0 <= sessStake stakes x < 2 ^ 63) l) as Hall.
  { apply Forall_forall. intros x _. unfold sessStake, stakeOf.
    destruct (stakes !! sessAddr x) as [v|] eqn:E; simpl; [|lia].
    by destruct (Hkeys _ _ E). }
  assert (0 <= sumZ (sessStake stakes <$> l)) as Hsum0.
  { clear -Hall. induction Hall as [|x l' Hx Hl' IH]; [done|].
    cbn [fmap list_fmap sumZ foldr]. fold (sumZ (sessStake stakes <$> l')). lia. }
  apply (lottery_wins stakes [] l r Hne).
  - subst r. destruct (0 <? total) eqn:E; [|lia]. apply Z.ltb_lt in E.
    pose proof (Int63n_range e total E). pose proof (wrap64_range (stakesTotal stakes)).
    subst total. rewrite totalStakeOf_sum in *. lia.
  - done.
  - subst r. destruct (0 <? total) eqn:E; [|lia]. apply Z.ltb_lt in E.
    pose proof (Int63n_range e total E). pose proof (wrap64_le _ Hpos).
    subst total. rewrite totalStakeOf_sum in *. lia.
Qed.

End unknown_selection.

(** ** Select *)

Section select_facts.
Import MinLS.

Lemma Peek_Some h m : sessHeap.Peek h = Some m -> exists t, h = m :: t.
Proof.
  unfold sessHeap.Peek, sessHeap.Len. destruct h as [|x t]; simpl; [done|].
  intros [= ->]. by exists t.
Qed.

Lemma Peek_None h : sessHeap.Peek h = None -> h = [].
Proof. unfold sessHeap.Peek, sessHeap.Len. by destruct h. Qed.

(** The selection among the sessions without a score leaves the rest of
    the selector alone, and what it returns it has removed. *)
Lemma selectUnknownSession_frame e s r s' log :
  selectUnknownSession e s = (r, s', log) ->
  knownSessions s' = knownSessions s /\ stakeRdr s' = stakeRdr s /\
  minLS s' = minLS s /\
  match r with
  | Some w => unknownSessions s ≡ₚ w :: unknownSessions s'
  | None => s' = s
  end.
Proof.
  destruct (unknownSessions s) as [|x l] eqn:Hl.
  { unfold selectUnknownSession. rewrite Hl. by intros [= <- <- <-]. }
  destruct (stakeRdr s) as [rdr|] eqn:Hrdr.
  2:{ unfold selectUnknownSession. rewrite Hl, Hrdr. by intros [= <- <- <-]. }
  pose proof (selectUnknownSession_oracle e s rdr Hrdr) as H.
  rewrite Hl in H. specialize (H ltac:(done)). cbv zeta in H.
  destruct (Stakes e rdr _) as [stakes|].
  2:{ rewrite H. by intros [= <- <- <-]. }
  set (r0 := if 0 <? totalStakeOf stakes then _ else _) in H.
  pose proof (lottery_spec_0 stakes (x :: l) r0) as Hw.
  destruct (lottery _ _ _ _ _) as [i|].
  2:{ rewrite H. by intros [= <- <- <-]. }
  destruct Hw as [Hi _].
  destruct (lookup_lt_is_Some_2 _ _ Hi) as [w Hw].
  rewrite H, Hw. intros [= <- <- <-]. cbn [knownSessions stakeRdr minLS unknownSessions].
  rewrite Hrdr. repeat split; try done.
  by destruct (removeAt_spec _ _ _ Hw) as (_ & _ & ?).
Qed.

Lemma Select_unknown e s :
  routedToUnknown s -> Select e s = Ret (selectUnknownSession e s).
Proof.
  unfold routedToUnknown, Select.
  destruct (sessHeap.Peek (knownSessions s)) as [m|]; [|done].
  intros [-> Hne]. destruct (unknownSessions s); done.
Qed.

Lemma Select_known e s m :
  sessHeap.Peek (knownSessions s) = Some m ->
  PrimFloat.ltb (minLS s) (LatencyScore m) = false \/ unknownSessions s = [] ->
  exists h',
    heap.Pop (knownSessions s) = Ret (m, h') /\
    Select e s = Ret (Some m, mkMinLS (unknownSessions s) h' (stakeRdr s) (minLS s), []) /\
    knownSessions s ≡ₚ m :: h'.
Proof.
  intros Hpeek Hcond. unfold Select. rewrite Hpeek.
  destruct (Peek_Some _ _ Hpeek) as [t Ht]. rewrite Ht.
  destruct (Pop_root m t) as (h' & Hpop & Hperm & _).
  exists h'. rewrite Hpop. split; [done|]. split; [|done].
  destruct Hcond as [-> | ->]; [done|]. by rewrite andb_false_r.
Qed.

Lemma routed_or_known s :
  routedToUnknown s \/
  exists m, sessHeap.Peek (knownSessions s) = Some m /\
    (PrimFloat.ltb (minLS s) (LatencyScore m) = false \/ unknownSessions s = []).
Proof.
  unfold routedToUnknown.
  destruct (sessHeap.Peek (knownSessions s)) as [m|]; [|by left].
  destruct (PrimFloat.ltb (minLS s) (LatencyScore m)) eqn:E.
  - destruct (unknownSessions s); [right; exists m; split; [done|by right]|by left].
  - right. exists m. split; [done|by left].
Qed.

(** [Select] does not panic. *)
Lemma Select_total e s : exists r s' log, Select e s = Ret (r, s', log).
Proof.
  destruct (routed_or_known s) as [H|(m & Hm & Hc)].
  - rewrite (Select_unknown e s H).
    destruct (selectUnknownSession e s) as [[r s'] log]. eauto.
  - destruct (Select_known e s m Hm Hc) as (h' & _ & -> & _). eauto.
Qed.

(** A session that [Select] returns has left the selector, and nothing
    else has. *)
Lemma Select_Some e s w s' log :
  Select e s = Ret (Some w, s', log) ->
  Size s = S (Size s') /\
  unknownSessions s ++ knownSessions s ≡ₚ w :: (unknownSessions s' ++ knownSessions s').
Proof.
  intros Hsel.
  assert (unknownSessions s ++ knownSessions s
            ≡ₚ w :: (unknownSessions s' ++ knownSessions s')) as Hperm.
  { destruct (routed_or_known s) as [H|(m & Hm & Hc)].
    - rewrite (Select_unknown e s H) in Hsel. injection Hsel as Hsel.
      apply selectUnknownSession_frame in Hsel as (-> & _ & _ & ->). done.
    - destruct (Select_known e s m Hm Hc) as (h' & _ & Hsel' & Hperm).
      rewrite Hsel' in Hsel. injection Hsel as <- <- _. cbn.
      rewrite Hperm. by rewrite Permutation_middle. }
  split; [|done]. unfold Size, sessHeap.Len.
  apply Permutation_length in Hperm. rewrite length_app in Hperm.
  simpl in Hperm. rewrite length_app in Hperm. lia.
Qed.

(** A call that returns nothing changes nothing. *)
Lemma Select_None e s s' log : Select e s = Ret (None, s', log) -> s' = s.
Proof.
  intros Hsel. destruct (routed_or_known s) as [H|(m & Hm & Hc)].
  - rewrite (Select_unknown e s H) in Hsel. injection Hsel as Hsel.
    by apply selectUnknownSession_frame in Hsel as (_ & _ & _ & ->).
  - destruct (Select_known e s m Hm Hc) as (h' & _ & Hsel' & _). congruence.
Qed.

(** With a stake reader that behaves, a selector that holds a session
    returns one. *)
Lemma Select_wellBehaved e s :
  wellBehaved e -> Size s <> 0%nat ->
  exists w s' log, Select e s = Ret (Some w, s', log).
Proof.
  intros Hwb Hsize.
  destruct (routed_or_known s) as [H|(m & Hm & Hc)].
  2:{ destruct (Select_known e s m Hm Hc) as (h' & _ & -> & _). eauto. }
  rewrite (Select_unknown e s H).
  assert (unknownSessions s <> []) as Hne.
  { unfold routedToUnknown in H.
    destruct (sessHeap.Peek (knownSessions s)) eqn:Hp; [tauto|].
    apply Peek_None in Hp. unfold Size, sessHeap.Len in Hsize. rewrite Hp in Hsize.
    destruct (unknownSessions s); [simpl in Hsize; lia|done]. }
  destruct (stakeRdr s) as [rdr|] eqn:Hrdr.
  2:{ unfold selectUnknownSession. rewrite Hrdr.
      destruct (unknownSessions s); [done|eauto]. }
  pose proof (selectUnknownSession_oracle e s rdr Hrdr Hne) as Hsel. cbv zeta in Hsel.
  destruct (Hwb rdr (sessAddr <$> unknownSessions s)) as (stakes & Hst & Hkeys).
  rewrite Hst in Hsel.
  destruct (lottery_wellBehaved e rdr _ stakes Hne Hst Hkeys) as [i Hi].
  cbv zeta in Hi. rewrite Hi in Hsel.
  pose proof (lottery_spec_0 stakes (unknownSessions s)
                (if 0 <? totalStakeOf stakes
                 then Int63n e (totalStakeOf stakes) else 0)) as Hw.
  rewrite Hi in Hw. destruct Hw as [Hlt _].
  destruct (lookup_lt_is_Some_2 _ _ Hlt) as [w Hw].
  rewrite Hsel, Hw. eauto.
Qed.

Lemma Size_fills (rdr : option stakeReader) (T : float) (fills : list fill) :
  let s := foldl applyFill (NewMinLSSelector rdr T) fills in
  unknownSessions s ++ knownSessions s ≡ₚ concat (filled <$> fills).
Proof.
  cbv zeta. induction fills as [|f fills IH] using rev_ind; [done|].
  rewrite foldl_app, fmap_app, concat_app. cbn [foldl fmap list_fmap concat].
  rewrite app_nil_r, <- IH.
  set (s := foldl applyFill _ fills).
  destruct f as [l|x]; unfold applyFill, filled, Add, Complete;
    cbn [unknownSessions knownSessions].
  - rewrite <- !app_assoc. f_equiv. apply Permutation_app_comm.
  - unfold heap.Push, heap.up. rewrite up_loop_perm. unfold sessHeap.Push.
    by rewrite app_assoc.
Qed.

(** [drain] returns every session of a selector whose stake reader
    behaves, given a call for each of them. *)
Lemma drain_all envs s :
  Forall wellBehaved envs -> (Size s <= length envs)%nat ->
  exists out s',
    drain envs s = Ret (out, s') /\ Size s' = 0%nat /\
    out ≡ₚ unknownSessions s ++ knownSessions s.
Proof.
  revert s. induction envs as [|e envs IH]; intros s Hwb Hsize.
  { exists [], s. simpl in Hsize. split; [done|]. split; [lia|].
    unfold Size, sessHeap.Len in Hsize.
    destruct (unknownSessions s), (knownSessions s); simpl in *; (done || lia). }
  cbn [drain]. destruct (Size s =? 0)%nat eqn:E.
  { apply Nat.eqb_eq in E. exists [], s. split; [done|]. split; [done|].
    unfold Size, sessHeap.Len in E.
    destruct (unknownSessions s), (knownSessions s); simpl in *; (done || lia). }
  apply Nat.eqb_neq in E. apply Forall_cons in Hwb as [He Hwb].
  destruct (Select_wellBehaved e s He E) as (w & s1 & log & Hsel).
  rewrite Hsel. destruct (Select_Some e s w s1 log Hsel) as [Hsz Hperm].
  destruct (IH s1 Hwb) as (out & s' & Hdrain & Hzero & Hout).
  { simpl in Hsize. lia. }
  rewrite Hdrain. exists (w :: out), s'. split; [done|]. split; [done|].
  by rewrite Hperm, Hout.
Qed.

(** The heap of a selector filled with scored sessions is ordered. *)
Lemma reachable_ordered s :
  reachable s -> minHeap (knownSessions s) /\ Forall scored (knownSessions s).
Proof.
  induction 1 as [rdr T|s l _ IH|s x _ [IH1 IH2] Hx|s e r s' log _ [IH1 IH2] Hsel|s _ _].
  - split; [|by constructor]. intros j x p _ Hj. done.
  - done.
  - split; [by apply Push_ordered|]. unfold Complete. cbn [knownSessions].
    unfold heap.Push, heap.up. rewrite up_loop_perm. apply Forall_app. split; [done|by constructor].
  - destruct (routed_or_known s) as [H|(m & Hm & Hc)].
    + rewrite (Select_unknown e s H) in Hsel. injection Hsel as Hsel.
      apply selectUnknownSession_frame in Hsel as (-> & _). done.
    + destruct (Select_known e s m Hm Hc) as (h' & Hpop & Hsel' & Hperm).
      rewrite Hsel' in Hsel. injection Hsel as _ <- _. cbn. split.
      * by eapply Pop_ordered.
      * rewrite Hperm in IH2. by apply Forall_cons in IH2 as [_ ?].
  - split; [|by constructor]. intros j x p _ Hj. done.
Qed.

End select_facts.

(** ** The selection policy of MinLSSelector *)

(** The dispatch of [Select] on the entry at the root of the heap. With
    the heap not empty and [m] the entry that [Peek] shows:
    if the score of [m] is above the threshold and there is a
    session without a score, [Select] is the selection among the sessions
    without a score, which leaves the heap as it is and returns nothing or a
    session that it removes from them; if the score of [m] is at most the
    threshold, or there is no session without a score, [Select] removes [m]
    from the heap and returns it. In a selector filled with sessions whose
    scores are numbers, the score of [m] is at most that of every session
    of the heap. *)
Theorem Select_threshold_routing (e : Env) (s : MinLSSelector) (m : BroadcastSession) :
  sessHeap.Peek (knownSessions s) = Some m ->
  (PrimFloat.ltb (minLS s) (LatencyScore m) = true -> unknownSessions s <> [] ->
     MinLS.Select e s = Ret (MinLS.selectUnknownSession e s) /\
     forall r s' log, MinLS.selectUnknownSession e s = (r, s', log) ->
       knownSessions s' = knownSessions s /\
       match r with
       | Some w => unknownSessions s ≡ₚ w :: unknownSessions s'
       | None => s' = s
       end) /\
  (PrimFloat.leb (LatencyScore m) (minLS s) = true \/ unknownSessions s = [] ->
     exists h',
       MinLS.Select e s
         = Ret (Some m, mkMinLS (unknownSessions s) h' (stakeRdr s) (minLS s), []) /\
       knownSessions s ≡ₚ m :: h') /\
  (reachable s -> forall y, y ∈ knownSessions s -> scoreLe m y = true).
Proof.
  intros Hpeek. split; [|split].
  - intros Hgt Hne. split.
    + apply Select_unknown. unfold routedToUnknown. by rewrite Hpeek.
    + intros r s' log Hsel.
      by apply selectUnknownSession_frame in Hsel as (? & _ & _ & ?).
  - intros Hcond.
    destruct (Select_known e s m Hpeek) as (h' & _ & Hsel & Hperm).
    { destruct Hcond as [Hle|Hnil]; [left; by apply leb_not_gt|by right]. }
    by exists h'.
  - intros Hreach. destruct (reachable_ordered s Hreach) as [Hord Hsc].
    destruct (Peek_Some _ _ Hpeek) as [t Ht].
    apply root_is_min; [done|done|]. by rewrite Ht.
Qed.

Lemma Select_threshold_routing_witness :
  MinLS.Select envFail selScenario
    = Ret (Some sessA, mkMinLS [sessB] [mkSession 9 80 []] None 50, []).
Proof.
  destruct (Select_threshold_routing envFail selScenario (mkSession 9 80 []) eq_refl)
    as (H & _ & _).
  destruct (H eq_refl ltac:(discriminate)) as [-> _]. reflexivity.
Defined.

(** C4. When [Select] goes to the sessions without a score, a stake reader
    is set and its [Stakes] call returns an error, [Select] returns nothing
    and the selector is the same after the call as before: the sessions
    without a score in their order, the heap, and so [Size()]. *)
Theorem Select_oracle_failure (e : Env) (s : MinLSSelector) (rdr : stakeReader) :
  routedToUnknown s -> unknownSessions s <> [] -> stakeRdr s = Some rdr ->
  Stakes e rdr (sessAddr <$> unknownSessions s) = None ->
  MinLS.Select e s
    = Ret (None, s, [EvStakes rdr (sessAddr <$> unknownSessions s); EvLogError]).
Proof.
  intros Hroute Hne Hrdr Hfail. rewrite (Select_unknown e s Hroute). f_equal.
  pose proof (selectUnknownSession_oracle e s rdr Hrdr Hne) as H. cbv zeta in H.
  by rewrite Hfail in H.
Qed.

Lemma Select_oracle_failure_witness :
  MinLS.Select envFail selABC
    = Ret (None, selABC, [EvStakes 7%nat (sessAddr <$> [sessA; sessB; sessC]); EvLogError]).
Proof.
  apply (Select_oracle_failure envFail selABC 7%nat);
    [exact I | discriminate | reflexivity | reflexivity].
Defined.

(** C6, as the code behaves. When [Select] goes to the sessions without a
    score and a stake reader is set, it calls [Stakes] once, with the stake
    addresses of the sessions without a score in their order, one for each
    session. *)
Theorem Select_calls_Stakes_once (e : Env) (s : MinLSSelector) (rdr : stakeReader) :
  routedToUnknown s -> unknownSessions s <> [] -> stakeRdr s = Some rdr ->
  exists r s' log,
    MinLS.Select e s = Ret (r, s', log) /\
    stakesCalls log = [(rdr, sessAddr <$> unknownSessions s)].
Proof.
  intros Hroute Hne Hrdr. rewrite (Select_unknown e s Hroute).
  pose proof (selectUnknownSession_oracle e s rdr Hrdr Hne) as H. cbv zeta in H.
  destruct (Stakes e rdr _) as [stakes|].
  - destruct (MinLS.lottery _ _ _ _ _); rewrite H; do 3 eexists; (split; [done|]);
      by destruct (0 <? _).
  - rewrite H. by do 3 eexists.
Qed.

Lemma Select_calls_Stakes_once_witness :
  exists r s' log,
    MinLS.Select envAB selABC = Ret (r, s', log) /\
    stakesCalls log = [(7%nat, sessAddr <$> [sessA; sessB; sessC])].
Proof.
  apply (Select_calls_Stakes_once envAB selABC 7%nat);
    [exact I | discriminate | reflexivity].
Defined.

(** C6 fails as stated: two sessions without a score that have the same
    stake address make [Select] pass this address twice to [Stakes]. *)
Lemma Stakes_argument_keeps_duplicates :
  sessAddr sessA = sessAddr sessC /\
  exists r s' log,
    MinLS.Select envAB (mkMinLS [sessA; sessC] [] (Some 7%nat) 50) = Ret (r, s', log) /\
    stakesCalls log = [(7%nat, [sessAddr sessA; sessAddr sessA])].
Proof. split; [reflexivity|]. do 3 eexists. split; reflexivity. Qed.

(** C7. Without a stake reader, a [Select] that goes to the sessions
    without a score removes and returns the first of them, calling neither
    the stake reader nor the random source; on a selector that holds only
    sessions without a score, the calls of [Select] return them in the order
    of arrival. *)
Theorem Select_offline_FIFO :
  (forall e s x l,
     stakeRdr s = None -> routedToUnknown s -> unknownSessions s = x :: l ->
     MinLS.Select e s = Ret (Some x, mkMinLS l (knownSessions s) None (minLS s), [])) /\
  (forall envs l T,
     (length l <= length envs)%nat ->
     MinLS.drain envs (mkMinLS l [] None T) = Ret (l, mkMinLS [] [] None T)).
Proof.
  split.
  - intros e s x l Hrdr Hroute Hl. rewrite (Select_unknown e s Hroute).
    unfold MinLS.selectUnknownSession. by rewrite Hl, Hrdr.
  - intros envs l T. revert envs. induction l as [|x l IH]; intros envs Hlen.
    + by destruct envs.
    + destruct envs as [|e envs]; [simpl in Hlen; lia|].
      cbn [MinLS.drain]. unfold MinLS.Size at 1. cbn.
      rewrite IH by (simpl in Hlen; lia). done.
Qed.

Lemma Select_offline_FIFO_witness :
  MinLS.Select envFail selScenario
    = Ret (Some sessA, mkMinLS [sessB] [mkSession 9 80 []] None 50, []) /\
  MinLS.drain [envFail; envAB; envZero] (mkMinLS [sessA; sessB; sessC] [] None 50)
    = Ret ([sessA; sessB; sessC], mkMinLS [] [] None 50).
Proof.
  destruct Select_offline_FIFO as [H1 H2]. split.
  - apply (H1 envFail selScenario sessA [sessB]);
      [reflexivity | split; [reflexivity | discriminate] | reflexivity].
  - apply (H2 [envFail; envAB; envZero] [sessA; sessB; sessC] 50%float). simpl. lia.
Defined.



(** C2, as the code behaves. After any sequence of [Add] and [Complete]
    calls on a new selector, if every [Stakes] call succeeds and returns
    stakes that are not negative, for addresses that it was asked about,
    then calling [Select] until [Size() == 0] returns the sessions passed to
    [Add] and [Complete], each as many times as it was passed, and nothing
    else; and every [Select] that returns a session has removed this
    session, and no other, and has decreased [Size()] by one. *)
Theorem drain_returns_every_session (rdr : option stakeReader) (T : float)
    (fills : list MinLS.fill) (envs : list Env) :
  Forall wellBehaved envs ->
  (MinLS.Size (foldl MinLS.applyFill (MinLS.NewMinLSSelector rdr T) fills)
     <= length envs)%nat ->
  (exists out s',
     MinLS.drain envs (foldl MinLS.applyFill (MinLS.NewMinLSSelector rdr T) fills)
       = Ret (out, s') /\
     MinLS.Size s' = 0%nat /\
     out ≡ₚ concat (MinLS.filled <$> fills)) /\
  (forall e s w s' log,
     MinLS.Select e s = Ret (Some w, s', log) ->
     MinLS.Size s = S (MinLS.Size s') /\
     unknownSessions s ++ knownSessions s
       ≡ₚ w :: (unknownSessions s' ++ knownSessions s')).
Proof.
  intros Hwb Hsize. split; [|apply Select_Some].
  destruct (drain_all envs _ Hwb Hsize) as (out & s' & Hdrain & Hzero & Hout).
  exists out, s'. split; [done|]. split; [done|].
  rewrite Hout. apply Size_fills.
Qed.

Lemma envAsked_wellBehaved : wellBehaved envAsked.
Proof.
  intros rdr addrs. eexists. split; [reflexivity|]. intros a v Hav.
  apply map_lookup_filter_Some in Hav as [Hav Hin]. split; [done|].
  unfold stakesAB in Hav.
  apply lookup_insert_Some in Hav as [[_ <-]|[_ Hav]]; [lia|].
  apply lookup_singleton_Some in Hav as [_ <-]. lia.
Qed.

Lemma drain_returns_every_session_witness :
  (exists out s',
     MinLS.drain [envAsked; envAsked; envAsked]
       (foldl MinLS.applyFill (MinLS.NewMinLSSelector (Some 7%nat) 50)
          [MinLS.FillAdd [sessA; sessB]; MinLS.FillComplete sessC])
       = Ret (out, s') /\
     MinLS.Size s' = 0%nat /\
     out ≡ₚ concat (MinLS.filled <$> [MinLS.FillAdd [sessA; sessB]; MinLS.FillComplete sessC])).
Proof.
  apply (drain_returns_every_session (Some 7%nat) 50
           [MinLS.FillAdd [sessA; sessB]; MinLS.FillComplete sessC]
           [envAsked; envAsked; envAsked]).
  - repeat constructor; apply envAsked_wellBehaved.
  - vm_compute. lia.
Defined.

(** C2 fails as stated: a [Stakes] call that succeeds with a negative stake
    for the only session makes [Select] return nothing, whatever is drawn,
    so that no number of calls brings [Size()] to 0 or returns the session. *)
Lemma drain_stuck_on_negative_stake :
  MinLS.Size (MinLS.Add (MinLS.NewMinLSSelector (Some 7%nat) 50) [sessA]) = 1%nat /\
  (forall k, exists log,
     MinLS.Select (envNegative k) (MinLS.Add (MinLS.NewMinLSSelector (Some 7%nat) 50) [sessA])
       = Ret (None, MinLS.Add (MinLS.NewMinLSSelector (Some 7%nat) 50) [sessA], log)) /\
  (forall k n,
     MinLS.drain (replicate n (envNegative k))
       (MinLS.Add (MinLS.NewMinLSSelector (Some 7%nat) 50) [sessA])
     = Ret ([], MinLS.Add (MinLS.NewMinLSSelector (Some 7%nat) 50) [sessA])).
Proof.
  assert (forall k,
    MinLS.Select (envNegative k) (MinLS.Add (MinLS.NewMinLSSelector (Some 7%nat) 50) [sessA])
    = Ret (None, MinLS.Add (MinLS.NewMinLSSelector (Some 7%nat) 50) [sessA],
           [EvStakes 7%nat [sessAddr sessA]])) as Hsel.
  { intros k. reflexivity. }
  split; [reflexivity|]. split.
  - intros k. eexists. apply Hsel.
  - intros k n. induction n as [|n IH]; [reflexivity|].
    cbn [replicate MinLS.drain]. rewrite Hsel, IH. reflexivity.
Qed.

(** The minimum of the heap when no score is a NaN. In a selector filled
    with sessions whose scores are numbers, a [Select] that draws from the heap
    removes and returns a session whose score is at most the score of every
    session in the heap; so while a session [x] is in the heap, no session
    [y] of a greater score is returned: [y] stays in the heap. *)
Theorem Select_heap_minimum (e : Env) (s : MinLSSelector) (m : BroadcastSession) :
  reachable s ->
  sessHeap.Peek (knownSessions s) = Some m ->
  PrimFloat.ltb (minLS s) (LatencyScore m) = false \/ unknownSessions s = [] ->
  exists h',
    MinLS.Select e s
      = Ret (Some m, mkMinLS (unknownSessions s) h' (stakeRdr s) (minLS s), []) /\
    knownSessions s ≡ₚ m :: h' /\
    (forall y, y ∈ knownSessions s -> scoreLe m y = true) /\
    (forall x y, x ∈ knownSessions s -> y ∈ knownSessions s ->
       scoreLt x y = true -> m <> y /\ y ∈ h').
Proof.
  intros Hreach Hpeek Hcond.
  destruct (reachable_ordered s Hreach) as [Hord Hsc].
  destruct (Select_known e s m Hpeek Hcond) as (h' & _ & Hsel & Hperm).
  destruct (Peek_Some _ _ Hpeek) as [t Ht].
  assert (forall y, y ∈ knownSessions s -> scoreLe m y = true) as Hmin.
  { apply root_is_min; [done|done|]. by rewrite Ht. }
  exists h'. split; [done|]. split; [done|]. split; [done|].
  intros x y Hx Hy Hlt.
  assert (m <> y) as Hne.
  { intros <-. pose proof (scoreLe_Lt_trans m x m (Hmin x Hx) Hlt) as Hmm.
    by rewrite scoreLt_irrefl in Hmm. }
  split; [done|]. rewrite Hperm in Hy. apply elem_of_cons in Hy as [->|Hy]; done.
Qed.

Lemma selScored_reachable : reachable selScored.
Proof. repeat (apply reach_complete; [|reflexivity]). apply reach_new. Qed.

Lemma Select_heap_minimum_witness :
  exists h',
    MinLS.Select envFail selScored
      = Ret (Some (mkSession 2 1 []), mkMinLS [] h' None 100, []).
Proof.
  destruct (Select_heap_minimum envFail selScored (mkSession 2 1 [])
              selScored_reachable eq_refl (or_intror eq_refl))
    as (h' & Hsel & _).
  exists h'. exact Hsel.
Defined.

(** C1. The code on a heap whose root is a NaN. With the threshold 1, the
    heap completed with the scores NaN and 5 and one session without a
    score, no entry of the heap has a score that is at most the threshold,
    yet [Select] removes the entry of score NaN from the heap and returns
    it, and leaves the session without a score where it is. With the heap
    completed with the scores NaN and 0 and no session without a score,
    [Select] returns the entry of score NaN and leaves the entry of score 0,
    the lowest, in the heap. The defect is the one of C8: [Less] and the
    test of [Select] compare with [<] and [>], which are false on a NaN. *)
Lemma Select_routing_NaN_root :
  (knownSessions selNaNRoot = [mkSession 1 nan []; mkSession 2 5 []] /\
   unknownSessions selNaNRoot = [sessA] /\
   Forall (fun x => PrimFloat.leb (LatencyScore x) (minLS selNaNRoot) = false)
     (knownSessions selNaNRoot) /\
   PrimFloat.ltb (minLS selNaNRoot) (LatencyScore (mkSession 2 5 [])) = true /\
   MinLS.Select envFail selNaNRoot
     = Ret (Some (mkSession 1 nan []), mkMinLS [sessA] [mkSession 2 5 []] None 1, [])) /\
  (knownSessions selNaNLow = [mkSession 1 nan []; mkSession 2 0 []] /\
   unknownSessions selNaNLow = [] /\
   PrimFloat.leb (LatencyScore (mkSession 2 0 [])) (minLS selNaNLow) = true /\
   scoreLe (mkSession 1 nan []) (mkSession 2 0 []) = false /\
   MinLS.Select envFail selNaNLow
     = Ret (Some (mkSession 1 nan []), mkMinLS [] [mkSession 2 0 []] None 1, [])).
Proof.
  split.
  - split; [reflexivity|]. split; [reflexivity|]. split.
    + repeat constructor.
    + split; reflexivity.
  - repeat split; reflexivity.
Qed.

(** C8. The code on a heap that holds a NaN: after [Complete] of sessions
    with the scores 5, NaN, 6, 0, 7 and 1, in this order, [Select] draws
    from the heap and returns the session of score 1, while the session of
    score 0, scored before it, is in the heap and stays there. The session
    returned does not have the lowest score of the heap, against the
    comments of [Select] and [Peek]: [Less] compares the scores with [<],
    which puts a NaN neither below nor above any score, and an entry under
    a NaN is never moved past it. *)
Lemma Select_heap_NaN_not_minimum :
  knownSessions selNaN
    = [mkSession 6 1 []; mkSession 2 nan []; mkSession 1 5 [];
       mkSession 4 0 []; mkSession 5 7 []; mkSession 3 6 []] /\
  MinLS.Select envFail selNaN
    = Ret (Some (mkSession 6 1 []),
           mkMinLS [] [mkSession 3 6 []; mkSession 2 nan []; mkSession 1 5 [];
                       mkSession 4 0 []; mkSession 5 7 []] None 100, []) /\
  scoreLt (mkSession 4 0 []) (mkSession 6 1 []) = true /\
  scoreLe (mkSession 6 1 []) (mkSession 4 0 []) = false.
Proof. repeat split; reflexivity. Qed.

(** ** Further properties of MinLSSelector *)

(** X1. On a selector whose sessions are live objects (no pointer that it
    holds is nil, and the ticket parameters of a session are set), as the
    sessions of the model are, [Select] does not panic: [heap.Pop] is only
    called on a heap that is not empty, and [rand.Int63n] only with a
    positive argument; and a call of [Select] calls [Stakes] once at
    most. *)
Theorem MinLS_Select_never_panics (e : Env) (s : MinLSSelector) :
  exists r s' log,
    MinLS.Select e s = Ret (r, s', log) /\
    drawsGuarded log /\
    (length (stakesCalls log) <= 1)%nat.
Proof.
  destruct (routed_or_known s) as [H|(m & Hm & Hc)].
  2:{ destruct (Select_known e s m Hm Hc) as (h' & _ & -> & _).
      do 3 eexists. split; [done|]. split; [constructor|simpl; lia]. }
  rewrite (Select_unknown e s H).
  destruct (unknownSessions s) as [|x l] eqn:Hl.
  { unfold MinLS.selectUnknownSession. rewrite Hl.
    do 3 eexists. split; [done|]. split; [constructor|simpl; lia]. }
  destruct (stakeRdr s) as [rdr|] eqn:Hrdr.
  2:{ unfold MinLS.selectUnknownSession. rewrite Hl, Hrdr.
      do 3 eexists. split; [done|]. split; [constructor|simpl; lia]. }
  pose proof (selectUnknownSession_oracle e s rdr Hrdr) as Hsel.
  rewrite Hl in Hsel. specialize (Hsel ltac:(done)). cbv zeta in Hsel.
  destruct (Stakes e rdr _) as [stakes|].
  2:{ rewrite Hsel. do 3 eexists. split; [done|].
      split; [repeat constructor|simpl; lia]. }
  set (log := EvStakes rdr (sessAddr <$> x :: l)
                :: (if 0 <? MinLS.totalStakeOf stakes
                    then [EvInt63n (MinLS.totalStakeOf stakes)] else [])) in *.
  assert (drawsGuarded log /\ (length (stakesCalls log) <= 1)%nat) as [Hg Hc].
  { subst log. destruct (0 <? MinLS.totalStakeOf stakes) eqn:E.
    - apply Z.ltb_lt in E.
      split; [constructor; [exact I|constructor; [exact E|constructor]]|simpl; lia].
    - split; [constructor; [exact I|constructor]|simpl; lia]. }
  destruct (MinLS.lottery _ _ _ _ _); rewrite Hsel; do 3 eexists; (split; [done|]);
    by split.
Qed.

(** X2. On a selector that holds no session, [Select] returns nothing,
    leaves the selector as it is and calls neither the stake reader nor the
    random source, whether a stake reader is set or not. *)
Theorem MinLS_Select_empty (e : Env) (s : MinLSSelector) :
  MinLS.Size s = 0%nat -> MinLS.Select e s = Ret (None, s, []).
Proof.
  unfold MinLS.Size, sessHeap.Len. intros Hsize.
  destruct (unknownSessions s) as [|x l] eqn:Hl; [|simpl in Hsize; lia].
  destruct (knownSessions s) as [|y h] eqn:Hh; [|simpl in Hsize; lia].
  unfold MinLS.Select, MinLS.selectUnknownSession. by rewrite Hh, Hl.
Qed.

Lemma MinLS_Select_empty_witness :
  MinLS.Select envAB (MinLS.NewMinLSSelector (Some 7%nat) 50)
    = Ret (None, MinLS.NewMinLSSelector (Some 7%nat) 50, []).
Proof. apply MinLS_Select_empty. reflexivity. Defined.

(** X3. On a selector whose sessions are live objects (no pointer that it
    holds is nil), as the sessions of the model are: a [Select] that
    returns no session leaves the selector as it was; and without a stake
    reader, a selector that holds a session always returns one, with no
    call to a collaborator. *)
Theorem MinLS_Select_none_or_offline :
  (forall e s s' log, MinLS.Select e s = Ret (None, s', log) -> s' = s) /\
  (forall e s, stakeRdr s = None -> MinLS.Size s <> 0%nat ->
     exists w s', MinLS.Select e s = Ret (Some w, s', [])).
Proof.
  split; [apply Select_None|].
  intros e s Hrdr Hsize.
  destruct (routed_or_known s) as [H|(m & Hm & Hc)].
  2:{ destruct (Select_known e s m Hm Hc) as (h' & _ & -> & _). eauto. }
  rewrite (Select_unknown e s H). unfold MinLS.selectUnknownSession. rewrite Hrdr.
  destruct (unknownSessions s) as [|x l] eqn:Hl; [|eauto].
  exfalso. unfold routedToUnknown in H. rewrite Hl in H.
  destruct (sessHeap.Peek (knownSessions s)) eqn:Hp; [tauto|].
  apply Peek_None in Hp. unfold MinLS.Size, sessHeap.Len in Hsize.
  rewrite Hl, Hp in Hsize. done.
Qed.

Lemma MinLS_Select_none_or_offline_witness :
  exists w s', MinLS.Select envFail selScenario = Ret (Some w, s', []).
Proof.
  destruct MinLS_Select_none_or_offline as [_ H].
  apply (H envFail selScenario); [reflexivity|]. vm_compute. discriminate.
Defined.

(** X4. [Clear] empties the selector and drops its stake reader: after it
    [Size()] is 0 and [Select] returns nothing, and the sessions added
    afterwards are returned in the order of arrival, without a call to the
    stake reader that the selector had. *)
Theorem MinLS_Clear_resets (e : Env) (s : MinLSSelector) :
  MinLS.Size (MinLS.Clear s) = 0%nat /\
  MinLS.Select e (MinLS.Clear s) = Ret (None, MinLS.Clear s, []) /\
  stakeRdr (MinLS.Clear s) = None /\
  forall x l,
    MinLS.Select e (MinLS.Add (MinLS.Clear s) (x :: l))
      = Ret (Some x, MinLS.Add (MinLS.Clear s) l, []).
Proof. repeat split. Qed.

(** X5. [Add] and [Complete] keep what the selector holds: [Add] puts the
    sessions behind the ones without a score and leaves the heap alone,
    [Complete] leaves the sessions without a score alone and adds the
    session to those of the heap; neither changes the stake reader or the
    threshold; [Size()] grows by the number of sessions passed, two calls
    of [Add] are one call with the two lists joined, and [Add] and
    [Complete] commute. *)
Theorem MinLS_Add_Complete (s : MinLSSelector) (l l' : list BroadcastSession)
    (x : BroadcastSession) :
  (unknownSessions (MinLS.Add s l) = unknownSessions s ++ l /\
   knownSessions (MinLS.Add s l) = knownSessions s /\
   stakeRdr (MinLS.Add s l) = stakeRdr s /\
   minLS (MinLS.Add s l) = minLS s) /\
  (unknownSessions (MinLS.Complete s x) = unknownSessions s /\
   knownSessions (MinLS.Complete s x) ≡ₚ x :: knownSessions s /\
   stakeRdr (MinLS.Complete s x) = stakeRdr s /\
   minLS (MinLS.Complete s x) = minLS s) /\
  MinLS.Size (MinLS.Add s l) = (MinLS.Size s + length l)%nat /\
  MinLS.Size (MinLS.Complete s x) = S (MinLS.Size s) /\
  MinLS.Add (MinLS.Add s l) l' = MinLS.Add s (l ++ l') /\
  MinLS.Add (MinLS.Complete s x) l = MinLS.Complete (MinLS.Add s l) x.
Proof.
  assert (knownSessions (MinLS.Complete s x) ≡ₚ x :: knownSessions s) as Hperm.
  { unfold MinLS.Complete. cbn [knownSessions]. unfold heap.Push, heap.up.
    rewrite up_loop_perm. unfold sessHeap.Push. symmetry. apply Permutation_cons_append. }
  split; [done|]. split; [done|]. split; [|split; [|split; [|done]]].
  - unfold MinLS.Size, MinLS.Add. cbn [unknownSessions knownSessions].
    rewrite length_app. lia.
  - unfold MinLS.Size, sessHeap.Len. rewrite (Permutation_length Hperm).
    unfold MinLS.Complete. cbn [unknownSessions length]. lia.
  - unfold MinLS.Add. cbn [unknownSessions knownSessions stakeRdr minLS].
    by rewrite app_assoc.
Qed.

Section sorted_drain.
Import MinLS.

(** The drain of a selector that holds scored sessions only, from an
    ordered heap. *)
Lemma drain_known_sorted envs h rdr T :
  minHeap h -> Forall scored h -> (length h <= length envs)%nat ->
  exists out,
    drain envs (mkMinLS [] h rdr T) = Ret (out, mkMinLS [] [] rdr T) /\
    out ≡ₚ h /\
    StronglySorted (fun a b => scoreLe a b = true) out.
Proof.
  revert h. induction envs as [|e envs IH]; intros h Hord Hsc Hlen.
  { destruct h; [|simpl in Hlen; lia]. exists []. split; [done|]. split; [done|constructor]. }
  destruct h as [|m t] eqn:Hh.
  { exists []. split; [done|]. split; [done|constructor]. }
  rewrite <- Hh in *.
  assert (sessHeap.Peek h = Some m) as Hpeek by by rewrite Hh.
  destruct (Select_known e (mkMinLS [] h rdr T) m Hpeek (or_intror eq_refl))
    as (h' & Hpop & Hsel & Hperm).
  cbn [knownSessions unknownSessions stakeRdr minLS] in *.
  assert (minHeap h') as Hord' by by eapply Pop_ordered.
  assert (Forall scored h') as Hsc'.
  { rewrite Hperm in Hsc. by apply Forall_cons in Hsc as [_ ?]. }
  destruct (IH h' Hord' Hsc') as (out & Hdrain & Hout & Hsorted).
  { apply Permutation_length in Hperm. simpl in Hperm, Hlen. lia. }
  exists (m :: out). cbn [drain].
  assert ((Size (mkMinLS [] h rdr T) =? 0)%nat = false) as ->.
  { rewrite Hh. done. }
  rewrite Hsel, Hdrain. split; [done|]. split; [by rewrite Hperm, Hout|].
  constructor; [done|]. apply Forall_forall. intros y Hy.
  apply (root_is_min h m Hsc Hord); [by rewrite Hh|].
  rewrite Hperm. apply elem_of_cons. right. by rewrite <- Hout.
Qed.

End sorted_drain.

(** X6. In a selector filled with sessions whose scores are numbers, once
    no session without a score is left, the calls of [Select] return the
    sessions of the heap in the order of their scores, lowest first, each
    once, whatever the threshold and the collaborators. *)
Theorem MinLS_drain_known_sorted (s : MinLSSelector) (envs : list Env) :
  reachable s -> unknownSessions s = [] ->
  (MinLS.Size s <= length envs)%nat ->
  exists out s',
    MinLS.drain envs s = Ret (out, s') /\
    MinLS.Size s' = 0%nat /\
    out ≡ₚ knownSessions s /\
    StronglySorted (fun a b => scoreLe a b = true) out.
Proof.
  intros Hreach Hun Hsize. destruct (reachable_ordered s Hreach) as [Hord Hsc].
  destruct s as [un h rdr T]. cbn [unknownSessions knownSessions] in *. subst un.
  destruct (drain_known_sorted envs h rdr T Hord Hsc Hsize) as (out & Hdrain & Hout & Hs).
  exists out, (mkMinLS [] [] rdr T). by rewrite Hdrain.
Qed.

Lemma MinLS_drain_known_sorted_witness :
  exists out s',
    MinLS.drain [envFail; envFail; envFail] selScored = Ret (out, s') /\
    out = [mkSession 2 1 []; mkSession 3 2 []; mkSession 1 3 []].
Proof.
  destruct (MinLS_drain_known_sorted selScored [envFail; envFail; envFail]
              selScored_reachable eq_refl ltac:(vm_compute; lia))
    as (out & s' & Hdrain & _).
  exists out, s'. split; [exact Hdrain|].
  vm_compute in Hdrain. by injection Hdrain as <- _.
Defined.

Section lottery_ranges.
Import MinLS.





End lottery_ranges.



(** ** Further properties of sessHeap under container/heap *)

(** X8. [heap.Pop] panics on the empty heap only; on any other heap it
    removes and returns the entry at index 0, the one that [Peek] shows,
    and keeps all the others, whatever the scores are. *)
Theorem heap_Pop_returns_Peek (h : list BroadcastSession) :
  (heap.Pop h = Panic <-> h = []) /\
  (sessHeap.Peek h = None <-> h = []) /\
  (forall m, sessHeap.Peek h = Some m ->
     exists h', heap.Pop h = Ret (m, h') /\ h ≡ₚ m :: h' /\
       S (length h') = length h).
Proof.
  destruct h as [|x t].
  - repeat split; done.
  - destruct (Pop_root x t) as (h' & Hpop & Hperm & Hlen). split; [|split].
    + rewrite Hpop. split; done.
    + split; done.
    + intros m [= <-]. exists h'. rewrite Hlen. done.
Qed.

(** X9. On a heap that is ordered and whose scores are numbers,
    [heap.Push] of a session whose score is a number adds this session and
    gives an ordered heap, and [heap.Pop] returns a session of the lowest
    score and leaves an ordered heap. *)
Theorem heap_Push_Pop_keep_order (h : list BroadcastSession) (x : BroadcastSession) :
  Forall scored h -> minHeap h ->
  (scored x -> minHeap (heap.Push h x) /\ heap.Push h x ≡ₚ x :: h) /\
  (forall m h', heap.Pop h = Ret (m, h') ->
     minHeap h' /\ Forall scored h' /\ forall y, y ∈ h -> scoreLe m y = true).
Proof.
  intros Hsc Hord. split.
  - intros Hx. split; [by apply Push_ordered|].
    unfold heap.Push, heap.up. rewrite up_loop_perm. unfold sessHeap.Push.
    symmetry. apply Permutation_cons_append.
  - intros m h' Hpop. destruct h as [|r t]; [done|].
    destruct (Pop_root r t) as (h'' & Hpop' & Hperm & _).
    rewrite Hpop' in Hpop. injection Hpop as <- <-.
    split; [by eapply Pop_ordered|]. split.
    + rewrite Hperm in Hsc. by apply Forall_cons in Hsc as [_ ?].
    + by apply root_is_min.
Qed.

Lemma heap_Push_Pop_keep_order_witness :
  minHeap (heap.Push (knownSessions selScored) (mkSession 4 0 [])).
Proof.
  destruct (reachable_ordered selScored selScored_reachable) as [Hord Hsc].
  destruct (heap_Push_Pop_keep_order (knownSessions selScored) (mkSession 4 0 [])
              Hsc Hord) as [H _].
  destruct (H eq_refl) as [Hm _]. exact Hm.
Defined.

(** ** Further properties of LIFOSelector *)

(** X10. [Select] of the LIFO selector panics exactly when the selector is
    empty; so it panics after [Clear], and never right after [Add] of a
    list that is not empty or after [Complete]. *)
Theorem LIFO_Select_panics_iff_empty (s : list BroadcastSession) :
  (LIFO.Select s = Panic <-> LIFO.Size s = 0%nat) /\
  LIFO.Select (LIFO.Clear s) = Panic /\
  (forall x l, LIFO.Select (LIFO.Add s (x :: l)) <> Panic) /\
  (forall x, LIFO.Select (LIFO.Complete s x) <> Panic).
Proof.
  assert (forall t : list BroadcastSession,
            (0 < length t)%nat -> LIFO.Select t <> Panic) as Hpos.
  { intros t Ht. destruct (nonempty_snoc t Ht) as (t' & y & ->).
    by rewrite Select_snoc. }
  split; [|split; [done|split]].
  - unfold LIFO.Size. split.
    + intros Hp. destruct (length s) eqn:E; [done|].
      exfalso. apply (Hpos s); [lia|done].
    + intros Hz. destruct s; [done|simpl in Hz; lia].
  - intros x l. apply Hpos. unfold LIFO.Add. simpl. lia.
  - intros x. apply Hpos. unfold LIFO.Complete. rewrite length_app. simpl. lia.
Qed.

Section LIFO_drain.

Lemma drainLIFO_rev (s : list BroadcastSession) :
  drainLIFO (length s) s = Ret (rev s, []).
Proof.
  induction s as [|x s IH] using rev_ind; [done|].
  rewrite length_app, Nat.add_1_r. cbn [drainLIFO].
  rewrite Select_snoc, IH, rev_unit. done.
Qed.

End LIFO_drain.

(** X11. As many calls of [Select] as [Size()] says empty a LIFO selector
    and return its sessions from the back of the list to its front; one
    more call panics. *)
Theorem LIFO_drain_reverses (s : list BroadcastSession) :
  drainLIFO (LIFO.Size s) s = Ret (rev s, []) /\
  drainLIFO (S (LIFO.Size s)) s = Panic.
Proof.
  split; [apply drainLIFO_rev|].
  unfold LIFO.Size. induction s as [|x s IH] using rev_ind; [done|].
  rewrite length_app, Nat.add_1_r.
  change (drainLIFO (S (S (length s))) (s ++ [x]))
    with (match LIFO.Select (s ++ [x]) with
          | Panic => Panic
          | Ret (sess, s') =>
              match drainLIFO (S (length s)) s' with
              | Panic => Panic
              | Ret (out, s'') => Ret (sess :: out, s'')
              end
          end).
  by rewrite Select_snoc, IH.
Qed.

(** X12. The order in which a LIFO selector gives its sessions back: the
    session completed last comes first, then the sessions held before,
    then the batches added, in the order of the [Add] calls, each batch
    from its last session to its first. *)
Theorem LIFO_order_of_return (s l1 l2 : list BroadcastSession) (x : BroadcastSession) :
  drainLIFO (LIFO.Size (LIFO.Complete (LIFO.Add (LIFO.Add s l1) l2) x))
    (LIFO.Complete (LIFO.Add (LIFO.Add s l1) l2) x)
  = Ret (x :: rev s ++ rev l1 ++ rev l2, []).
Proof.
  unfold LIFO.Size. rewrite drainLIFO_rev. unfold LIFO.Complete, LIFO.Add.
  by rewrite rev_unit, !rev_app_distr, <- app_assoc.
Qed.

(** ** The stub broker of pm/stub.go *)

Section stub_broker.
Import pm.

Lemma approve_fold_lookup (signers : list (list N)) (m : gmap (list N) bool)
    (signer : list N) :
  foldl (fun m a => <[a := true]> m) m signers !! signer
  = if decide (signer ∈ signers) then Some true else m !! signer.
Proof.
  revert m. induction signers as [|a signers IH]; intros m.
  { cbn [foldl]. rewrite decide_False; [done|]. apply not_elem_of_nil. }
  cbn [foldl]. rewrite IH.
  destruct (decide (signer ∈ signers)) as [Hin|Hnin].
  - rewrite decide_True; [done|]. by apply elem_of_cons; right.
  - destruct (decide (a = signer)) as [->|Hne].
    + rewrite lookup_insert_eq. rewrite decide_True; [done|]. by apply elem_of_cons; left.
    + rewrite lookup_insert_ne by done. rewrite decide_False; [done|].
      intros [->|?]%elem_of_cons; done.
Qed.

End stub_broker.

(** X13. The deposits of the stub broker: a new broker has none, and
    [GetDeposit] returns an error for every address; after [SetDeposit] of
    an address [GetDeposit] returns the amount set last for it and what it
    returned before for any other address; penalty escrows are kept apart
    from deposits, and [FundDeposit] changes neither. *)
Theorem stubBroker_deposits (b : pm.stubBroker) (addr addr' : list N) (amount : Z) :
  pm.GetDeposit pm.newStubBroker addr = (None, Some (pm.ErrNoDeposit addr)) /\
  pm.GetDeposit (pm.SetDeposit b addr amount) addr'
    = (if decide (addr = addr') then (Some amount, None) else pm.GetDeposit b addr') /\
  pm.GetPenaltyEscrow (pm.SetDeposit b addr amount) addr' = pm.GetPenaltyEscrow b addr' /\
  pm.GetDeposit (pm.SetPenaltyEscrow b addr amount) addr' = pm.GetDeposit b addr' /\
  pm.GetDeposit (pm.FundDeposit b amount).1 addr' = pm.GetDeposit b addr'.
Proof.
  split; [done|]. split; [|done].
  unfold pm.GetDeposit, pm.SetDeposit. cbn [pm.deposits].
  rewrite lookup_insert. by destruct (decide (addr = addr')).
Qed.

(** X14. After [ApproveSigners(signers)] a signer is approved, for any
    sender, exactly when it is among [signers] or was approved before; the
    deposits and the used tickets are as before. *)
Theorem stubBroker_ApproveSigners (b : pm.stubBroker) (signers : list (list N))
    (sender signer : list N) :
  ((pm.IsApprovedSigner (pm.ApproveSigners b signers).1 sender signer).1 = true <->
     signer ∈ signers \/ (pm.IsApprovedSigner b sender signer).1 = true) /\
  (pm.ApproveSigners b signers).2 = None /\
  pm.deposits (pm.ApproveSigners b signers).1 = pm.deposits b /\
  pm.usedTickets (pm.ApproveSigners b signers).1 = pm.usedTickets b.
Proof.
  split; [|done]. unfold pm.IsApprovedSigner, pm.ApproveSigners.
  cbn [fst pm.approvedSigners]. rewrite approve_fold_lookup.
  destruct (decide (signer ∈ signers)) as [Hin|Hnin]; cbn [default from_option].
  - split; [by left|done].
  - split; [by right|]. intros [?|?]; done.
Qed.

(** X15. Whatever calls follow, a ticket that the stub broker has marked
    as used stays used and a signer that is approved stays approved: no
    method, [RequestSignersRevocation] included, takes either back. *)
Theorem stubBroker_never_forgets (Ticket : Type) (Hash : Ticket -> list N)
    (calls : list (pm.call Ticket)) (b : pm.stubBroker) :
  (forall ticket,
     (pm.IsUsedTicket Ticket Hash b ticket).1 = true ->
     (pm.IsUsedTicket Ticket Hash (foldl (pm.after Ticket Hash) b calls) ticket).1 = true) /\
  (forall sender signer,
     (pm.IsApprovedSigner b sender signer).1 = true ->
     (pm.IsApprovedSigner (foldl (pm.after Ticket Hash) b calls) sender signer).1 = true).
Proof.
  revert b. induction calls as [|c calls IH]; intros b; [done|].
  cbn [foldl]. destruct (IH (pm.after Ticket Hash b c)) as [IH1 IH2]. split.
  - intros ticket Hused. apply IH1. clear IH1 IH2.
    destruct c; try done.
    unfold pm.IsUsedTicket, pm.after, pm.RedeemWinningTicket in *.
    cbn [fst pm.usedTickets] in *. rewrite lookup_insert.
    by destruct (decide (Hash ticket0 = Hash ticket)).
  - intros sender signer Happ. apply IH2. clear IH1 IH2.
    destruct c; try done.
    unfold pm.IsApprovedSigner, pm.after, pm.ApproveSigners in *.
    cbn [fst pm.approvedSigners] in *. rewrite approve_fold_lookup.
    by destruct (decide (signer ∈ signers)).
Qed.

(** X16. The used tickets of the stub broker are kept by hash: a new
    broker has used none; after [RedeemWinningTicket] of a ticket,
    [IsUsedTicket] is true for every ticket of the same hash and as before
    for the others, and no error is returned. *)
Theorem stubBroker_used_tickets (Ticket : Type) (Hash : Ticket -> list N)
    (b : pm.stubBroker) (ticket ticket' : Ticket) (sig : list N) (recipientRand : Z) :
  pm.IsUsedTicket Ticket Hash pm.newStubBroker ticket = (false, None) /\
  pm.IsUsedTicket Ticket Hash
    (pm.RedeemWinningTicket Ticket Hash b ticket sig recipientRand).1 ticket'
    = (if decide (Hash ticket = Hash ticket') then (true, None)
       else pm.IsUsedTicket Ticket Hash b ticket') /\
  (pm.RedeemWinningTicket Ticket Hash b ticket sig recipientRand).2 = None.
Proof.
  split; [done|]. split; [|done].
  unfold pm.IsUsedTicket, pm.RedeemWinningTicket. cbn [fst pm.usedTickets].
  rewrite lookup_insert. by destruct (decide (Hash ticket = Hash ticket')).
Qed.
